(** * Hacker News engagement dashboard

    A shallow embedding of [visualize_hackernews.py]: the loader, the
    "top N plus other" aggregation, the domain extraction, the engagement
    bucketing, the checks of the pie renderer and the driver, with the
    properties of the dashboard's data proved about them.

    Conventions of the embedding.
    - The numeric columns (Votes, Comments, the votes added up by domain)
      are int64 columns, the dtype that [read_csv] and [pd.to_numeric] give
      to a column of whole numbers.  A cell is an integer; [Series.sum()],
      the difference of two sums and the grouped sum wrap around modulo
      2^64 as the machine operations do, and [astype(float)] rounds to the
      nearest float64.  (A column in which [pd.to_numeric] met a cell that
      is not a number is a float64 column in pandas; it holds the same
      whole numbers, and as long as its sums stay within 2^53 they are
      those of the int64 column.  Beyond that bound a float64 column is
      outside the embedding.)
    - A float is represented by the rational number it holds, with [Qeq]
      ([==]) as equality.  The sizes of a chart are floats that hold whole
      numbers; the engagement ratio is the exact quotient.
    - A DataFrame is the list of its rows; a column is selected by an
      accessor function on rows.  Columns assigned in place live in a map
      from column names to columns, inside a store of objects, so that
      aliasing between the caller's table and the local one is visible.
    - Library code that the program calls but does not contain (the sort
      kernel behind [sort_values], [textwrap.shorten], [pd.to_numeric], the
      non-ASCII and bracketed-host checks of [urlparse]) is a parameter.
      Of [ax.pie] the checks that make it raise are modelled, the drawing
      itself is not. *)

From Stdlib Require Import QArith Lqa ZArith Lia Ascii String List Permutation Sorted DecimalString.
From stdpp Require Import gmap strings list fin_maps sorting.

Open Scope Q_scope.

(** ** Numbers *)

Definition Qlt_bool (x y : Q) : bool := negb (Qle_bool y x).

Global Instance Qlt_decision (x y : Q) : Decision (x < y).
Proof.
  destruct (Qlt_le_dec x y) as [H|H]; [left; exact H | right; apply Qle_not_lt, H].
Defined.

(** The sum of a list of floats, as a number. *)
Definition sumQ (xs : list Q) : Q := foldr Qplus 0 xs.

(** The sum of a list of integers, as a number. *)
Definition sumZ (xs : list Z) : Z := foldr Z.add 0%Z xs.

(** What an int64 operation leaves when the exact result is [z]: the number
    in [-2^63, 2^63) that differs from [z] by a multiple of 2^64. *)
Definition wrap_int64 (z : Z) : Z := ((z + 2 ^ 63) mod 2 ^ 64 - 2 ^ 63)%Z.

(** [Series.sum()] of an int64 column. *)
Definition Series_sum (xs : list Z) : Z := wrap_int64 (sumZ xs).

(** The distance between neighbouring float64 numbers at an integer: 1 up
    to 2^53, and 2^(k-52) for a magnitude in [2^k, 2^(k+1)). *)
Definition float_ulp (z : Z) : Z := (2 ^ Z.max 0 (Z.log2 (Z.abs z) - 52))%Z.

(** The multiple of [u] nearest to [n], the even multiple when [n] lies
    halfway between two. *)
Definition round_half_even (n u : Z) : Z :=
  (let q := n / u in
   let r := n mod u in
   (if 2 * r <? u then q
    else if u <? 2 * r then q + 1
    else if Z.even q then q else q + 1) * u)%Z.

(** The float64 nearest to an integer. *)
Definition nearest_float (z : Z) : Z :=
  (Z.sgn z * round_half_even (Z.abs z) (float_ulp z))%Z.

(** [astype(float)] on an int64 cell. *)
Definition astype_float (z : Z) : Q := inject_Z (nearest_float z).

(** ** Exceptions and results *)

(** The exceptions the program can end with, one constructor per place that
    raises: the two [raise] statements of [main], [urlparse], the column
    lookup of the DataFrame library, and the three checks of [ax.pie].
    [py_class] and [py_message] give the Python class and text of each. *)
Inductive exn :=
| DatasetNotFound (data_path : string)
| NoValidRows
| UrlError (msg : string)
| KeyError (column : string)
| NegativeWedge
| ZeroWedges
| LabelCount.

Definition py_class (e : exn) : string :=
  match e with
  | DatasetNotFound _ => "FileNotFoundError"
  | NoValidRows => "ValueError"
  | UrlError _ => "ValueError"
  | KeyError _ => "KeyError"
  | NegativeWedge => "ValueError"
  | ZeroWedges => "ValueError"
  | LabelCount => "ValueError"
  end.

Definition py_message (e : exn) : string :=
  match e with
  | DatasetNotFound data_path => "Dataset not found: " +:+ data_path
  | NoValidRows => "Dataset contains no valid numeric rows."
  | UrlError msg => msg
  | KeyError column => "'" +:+ column +:+ "'"
  | NegativeWedge => "Wedge sizes 'x' must be non negative values"
  | ZeroWedges => "All wedge sizes are zero"
  | LabelCount => "'label' must be of length 'x'"
  end.

Inductive result (A : Type) :=
| Ok (a : A)
| Raise (e : exn).
Arguments Ok {A} a.
Arguments Raise {A} e.

Definition result_bind {A B} (r : result A) (k : A -> result B) : result B :=
  match r with
  | Ok a => k a
  | Raise e => Raise e
  end.

(** [Series.apply(f)]: the first exception raised by [f] aborts the loop. *)
Fixpoint apply_series {A B} (f : A -> result B) (series : list A) : result (list B) :=
  match series with
  | [] => Ok []
  | x :: rest =>
      result_bind (f x) (fun y =>
      result_bind (apply_series f rest) (fun ys => Ok (y :: ys)))
  end.

(** ** Row operations of the DataFrame library *)

(** [DataFrame.take(indexer)]: the rows at the given positions, in that
    order. *)
Definition take_rows {A} (indexer : list nat) (rows : list A) : list A :=
  omap (fun i => rows !! i) indexer.

(** [DataFrame.head(n)]: the first [n] rows, and for a negative [n] all rows
    but the last [-n]. *)
Definition df_head {A} (n : Z) (rows : list A) : list A :=
  if (0 <=? n)%Z then take (Z.to_nat n) rows
  else take (length rows - Z.to_nat (- n)) rows.

(** What the library promises of an argsort in descending order, for every
    sort kind: the positions are a rearrangement of [0 .. len-1], and the
    keys read in that order never increase.  Nothing is promised about the
    order of equal keys unless a stable kind is requested. *)
Definition descending (xs : list Z) : Prop :=
  StronglySorted (fun a b => (b <= a)%Z) xs.

(** The same of a list of sizes. *)
Definition descending_sizes (xs : list Q) : Prop :=
  StronglySorted (fun a b => b <= a) xs.

Definition argsort_desc_spec (keys : list Z) (indexer : list nat) : Prop :=
  indexer ≡ₚ seq 0 (length keys) ∧ descending (take_rows indexer keys).

(** Two argsorts that meet the promise, to run the program on sample tables
    and to exercise statements that hold for every sort; neither is the
    kernel of the library.  Both insert the positions one by one, from the
    first, into the positions placed so far; [behind] tells from the two
    keys whether the new position goes behind a placed one.  With [Z.leb] a
    position goes behind the equal keys already placed, with [Z.ltb] in
    front of them. *)
Definition key_at (keys : list Z) (i : nat) : Z := nth i keys 0%Z.

Fixpoint insert_position (behind : Z -> Z -> bool) (keys : list Z) (i : nat)
    (placed : list nat) : list nat :=
  match placed with
  | [] => [i]
  | j :: rest =>
      if behind (key_at keys i) (key_at keys j)
      then j :: insert_position behind keys i rest
      else i :: placed
  end.

Definition argsort_by (behind : Z -> Z -> bool) (keys : list Z) : list nat :=
  foldl (fun placed i => insert_position behind keys i placed) []
    (seq 0 (length keys)).

Definition stable_argsort_desc : list Z -> list nat := argsort_by Z.leb.

Definition unstable_argsort_desc : list Z -> list nat := argsort_by Z.ltb.

(** ** The aggregator *)

Section Aggregator.
Local Open Scope Z_scope.
(** The argsort behind [sort_values(..., ascending=False)], called with the
    default sort kind. *)
Variable argsort_desc : list Z -> list nat.

Context {R : Type}.

(** [df.sort_values(by, ascending=False)] *)
Definition sort_values (df : list R) (by_col : R -> Z) : list R :=
  take_rows (argsort_desc (by_col <$> df)) df.

Section Locals.
Variables (df : list R) (value_col : R -> Z) (label_col : R -> string).
Variables (top_n : Z) (other_label : string).

(** The local variables of [_aggregate_top_share], in the order of the
    source: [ordered], [top] before the concatenation, [remainder], the
    difference of two int64 sums. *)
Definition ordered : list (string * Z) :=
  (fun r => (label_col r, value_col r)) <$> sort_values df value_col.

Definition top : list (string * Z) := df_head top_n ordered.

Definition remainder : Z :=
  wrap_int64 (Series_sum (snd <$> ordered) - Series_sum (snd <$> top)).

Definition _aggregate_top_share : list string * list Q :=
  let top := if 0 <? remainder
             then top ++ [(other_label, remainder)]
             else top in
  (fst <$> top, astype_float <$> (snd <$> top)).
End Locals.
End Aggregator.

(** ** Cells of the text columns *)

(** A cell of the Title or URL column as [read_csv] delivers it: a string, a
    missing value (the float NaN), or an integer when the column holds
    nothing but integers. *)
Inductive cell :=
| Text (s : string)
| NaN
| Int (z : Z).

(** [str(value)] *)
Definition py_str (c : cell) : string :=
  match c with
  | Text s => s
  | NaN => "nan"
  | Int z => NilZero.string_of_int (Z.to_int z)
  end.

(** ** [urllib.parse.urlparse], as far as the network location *)

Definition code (c : ascii) : nat := nat_of_ascii c.

(** [_WHATWG_C0_CONTROL_OR_SPACE]: the characters 0x00 to 0x20. *)
Definition c0_control_or_space (c : ascii) : bool := (code c <=? 32)%nat.

(** [_UNSAFE_URL_BYTES_TO_REMOVE]: tab, carriage return, newline. *)
Definition unsafe_url_byte (c : ascii) : bool :=
  (code c =? 9)%nat || (code c =? 13)%nat || (code c =? 10)%nat.

Definition ascii_alpha (c : ascii) : bool :=
  ((65 <=? code c) && (code c <=? 90))%nat || ((97 <=? code c) && (code c <=? 122))%nat.

Definition ascii_digit (c : ascii) : bool := ((48 <=? code c) && (code c <=? 57))%nat.

(** [scheme_chars]: letters, digits, and the characters + - . *)
Definition scheme_char (c : ascii) : bool :=
  ascii_alpha c || ascii_digit c
  || (code c =? 43)%nat || (code c =? 45)%nat || (code c =? 46)%nat.

(** The delimiters that end the network location: / ? # *)
Definition netloc_delim (c : ascii) : bool :=
  (code c =? 47)%nat || (code c =? 63)%nat || (code c =? 35)%nat.

Fixpoint lstrip (s : string) : string :=
  match s with
  | String c rest => if c0_control_or_space c then lstrip rest else s
  | EmptyString => EmptyString
  end.

Fixpoint remove_unsafe (s : string) : string :=
  match s with
  | String c rest =>
      if unsafe_url_byte c then remove_unsafe rest else String c (remove_unsafe rest)
  | EmptyString => EmptyString
  end.

Fixpoint all_chars (p : ascii -> bool) (s : string) : bool :=
  match s with
  | String c rest => p c && all_chars p rest
  | EmptyString => true
  end.

Fixpoint contains (c : ascii) (s : string) : bool :=
  match s with
  | String d rest => Ascii.eqb c d || contains c rest
  | EmptyString => false
  end.

(** [url.find(':')], as the text before the first colon and the text after
    it. *)
Fixpoint split_colon (s : string) : option (string * string) :=
  match s with
  | String c rest =>
      if (code c =? 58)%nat then Some (EmptyString, rest)
      else match split_colon rest with
           | Some (before, after) => Some (String c before, after)
           | None => None
           end
  | EmptyString => None
  end.

(** The scheme is split off when the colon is not the first character, the
    first character is an ASCII letter and everything before the colon is a
    scheme character. *)
Definition strip_scheme (url : string) : string :=
  match split_colon url with
  | Some (String c0 _ as before, after) =>
      if ascii_alpha c0 && all_chars scheme_char before then after else url
  | _ => url
  end.

(** [_splitnetloc(url, 2)]: the text up to the first delimiter. *)
Fixpoint up_to_delim (s : string) : string :=
  match s with
  | String c rest => if netloc_delim c then EmptyString else String c (up_to_delim rest)
  | EmptyString => EmptyString
  end.

Definition after_slashes (url : string) : option string :=
  match url with
  | String c1 (String c2 rest) =>
      if ((code c1 =? 47)%nat && (code c2 =? 47)%nat) then Some rest else None
  | _ => None
  end.

Definition is_ascii (s : string) : bool := all_chars (fun c => (code c <? 128)%nat) s.

Definition open_bracket : ascii := ascii_of_nat 91.
Definition close_bracket : ascii := ascii_of_nat 93.

(** URLs of the common shape [scheme://host...]: a scheme that starts with a
    letter, a host of ASCII characters without delimiters, brackets, tabs or
    line breaks, and a remainder that is empty or starts with a delimiter. *)
Definition valid_scheme (scheme : string) : bool :=
  match scheme with
  | String c0 _ => ascii_alpha c0 && all_chars scheme_char scheme
  | EmptyString => false
  end.

Definition host_char (c : ascii) : bool :=
  negb (netloc_delim c) && negb (unsafe_url_byte c)
  && negb (Ascii.eqb open_bracket c) && negb (Ascii.eqb close_bracket c)
  && (code c <? 128)%nat.

Definition plain_host (host : string) : bool := all_chars host_char host.

Definition delimited (rest : string) : bool :=
  match rest with
  | String c _ => netloc_delim c
  | EmptyString => true
  end.

Definition slash : ascii := ascii_of_nat 47.

Definition or_unknown (netloc : string) : string :=
  match netloc with
  | EmptyString => "Unknown"
  | _ => netloc
  end.

(** A cell that is not a string: missing, or a number. *)
Definition not_a_string (c : cell) : Prop :=
  match c with
  | Text _ => False
  | NaN | Int _ => True
  end.

Section Urlparse.
(** [_check_bracketed_netloc] validates a netloc that holds both brackets,
    and the NFKC part of [_checknetloc] a netloc that is not ASCII; both
    return the message of the [ValueError] they raise, or nothing. *)
Variable check_bracketed_netloc : string -> option string.
Variable check_nfkc : string -> option string.

Definition split_netloc (url : string) : result string :=
  match after_slashes url with
  | Some rest =>
      let netloc := up_to_delim rest in
      let has_open := contains open_bracket netloc in
      let has_close := contains close_bracket netloc in
      if (has_open && negb has_close) || (has_close && negb has_open)
      then Raise (UrlError "Invalid IPv6 URL")
      else if has_open && has_close
      then match check_bracketed_netloc netloc with
           | Some msg => Raise (UrlError msg)
           | None => Ok netloc
           end
      else Ok netloc
  | None => Ok EmptyString
  end.

Definition checknetloc (netloc : string) : result unit :=
  match netloc with
  | EmptyString => Ok tt
  | _ => if is_ascii netloc then Ok tt
         else match check_nfkc netloc with
              | Some msg => Raise (UrlError msg)
              | None => Ok tt
              end
  end.

(** [urlparse(url).netloc] *)
Definition urlparse_netloc (url : string) : result string :=
  let url := remove_unsafe (lstrip url) in
  let url := strip_scheme url in
  result_bind (split_netloc url) (fun netloc =>
  result_bind (checknetloc netloc) (fun _ => Ok netloc)).

(** [lambda url: urlparse(str(url)).netloc or "Unknown"] *)
Definition domain_label (url : cell) : result string :=
  result_bind (urlparse_netloc (py_str url)) (fun netloc => Ok (or_unknown netloc)).
End Urlparse.

(** A Python whose bracketed-host and NFKC checks accept everything: the
    checks that remain are those written out above. *)
Definition accept_all (_ : string) : option string := None.

(** ** The loaded table *)

Record Story := {
  Title : cell;
  URL : cell;
  Votes : Z;
  Comments : Z
}.

(** A row of the CSV file as [read_csv] delivers it: the two numeric columns
    are not validated yet. *)
Record CsvRow (RawCell : Type) := {
  csv_Title : cell;
  csv_URL : cell;
  csv_Votes : RawCell;
  csv_Comments : RawCell
}.
Arguments csv_Title {RawCell} _.
Arguments csv_URL {RawCell} _.
Arguments csv_Votes {RawCell} _.
Arguments csv_Comments {RawCell} _.

Section Loader.
Context {RawCell : Type}.
(** [pd.to_numeric(cell, errors="coerce")]: the whole number the cell reads
    as, or nothing (NaN) when the cell does not read as a number. *)
Variable to_numeric : RawCell -> option Z.

(** One row after the coercion and [dropna(subset=["Votes", "Comments"])]:
    kept when both cells are numbers. *)
Definition validate_row (r : CsvRow RawCell) : option Story :=
  match to_numeric (csv_Votes r), to_numeric (csv_Comments r) with
  | Some v, Some c =>
      Some {| Title := csv_Title r; URL := csv_URL r; Votes := v; Comments := c |}
  | _, _ => None
  end.

Definition load_hackernews (data : list (CsvRow RawCell)) : list Story :=
  omap validate_row data.
End Loader.

(** ** Grouping *)

(** [groupby(key, as_index=False)[value].sum()]: one row per key, keys in
    ascending order, the values of a key added up in input order by int64
    additions. *)
Fixpoint add_to_group (key : string) (value : Z) (groups : list (string * Z))
  : list (string * Z) :=
  match groups with
  | [] => [(key, value)]
  | (k, total) :: rest =>
      match String.compare key k with
      | Eq => (k, wrap_int64 (total + value)) :: rest
      | Lt => (key, value) :: groups
      | Gt => (k, total) :: add_to_group key value rest
      end
  end.

Definition groupby_sum {R} (key : R -> string) (value : R -> Z) (df : list R)
  : list (string * Z) :=
  foldl (fun groups r => add_to_group (key r) (value r) groups) [] df.

(** The rows of a group table that carry the given key, added up. *)
Definition group_total (key : string) (groups : list (string * Z)) : Z :=
  Series_sum (snd <$> filter (fun g => g.1 = key) groups).

(** ** Engagement buckets *)

(** A bin edge: a number or [float("inf")]. *)
Inductive edge :=
| Finite (q : Q)
| PosInf.

Definition edge_below (e : edge) (x : Q) : bool :=
  match e with
  | Finite q => Qlt_bool q x
  | PosInf => false
  end.

Definition edge_equal (e : edge) (x : Q) : bool :=
  match e with
  | Finite q => Qeq_bool q x
  | PosInf => false
  end.

(** [bins.searchsorted(x, side="left")] on ascending edges: the number of
    edges strictly below [x]. *)
Fixpoint searchsorted_left (bins : list edge) (x : Q) : nat :=
  match bins with
  | [] => 0
  | e :: rest => if edge_below e x then S (searchsorted_left rest x) else 0
  end.

(** [pd.cut(x, bins, labels=labels, include_lowest=True)] with the default
    [right=True], for one value: the bin index is found from the left, a
    value equal to the first edge is put into the first bin, and a value
    outside the edges gets no label. *)
Definition cut (bins : list edge) (labels : list string) (x : Q) : option string :=
  let ids := searchsorted_left bins x in
  let ids := match bins with
             | e :: _ => if edge_equal e x then 1%nat else ids
             | [] => ids
             end in
  if (ids =? length bins)%nat || (ids =? 0)%nat then None
  else labels !! (ids - 1)%nat.

(** [value_counts().sort_index()] of a categorical series: every category,
    in category order, with the number of values that carry it. *)
Definition value_counts (categories : list string) (series : list (option string))
  : list (string * nat) :=
  (fun lab => (lab, length (filter (fun v => v = Some lab) series))) <$> categories.

Definition engagement_edges : list edge := [Finite 0; Finite (1 # 2); Finite 1; PosInf].

Definition engagement_labels : list string :=
  ["Quiet (<0.5)"; "Balanced (0.5-1.0)"; "Buzzing (>1.0)"]%string.

(** A value of the binned series that carries one of the three labels. *)
Definition one_label (v : option string) : Prop :=
  v = Some "Quiet (<0.5)"%string ∨ v = Some "Balanced (0.5-1.0)"%string
  ∨ v = Some "Buzzing (>1.0)"%string.

(** [df["Comments"] / df["Votes"].replace({0: pd.NA})] for one row. *)
Definition EngagementRatio (r : Story) : option Q :=
  if (Votes r =? 0)%Z then None
  else Some (inject_Z (Comments r) / inject_Z (Votes r)).

(** [df.assign(EngagementRatio=...).dropna(subset=["EngagementRatio"])] *)
Definition engagement (df : list Story) : list (Story * Q) :=
  omap (fun r => pair r <$> EngagementRatio r) df.

(** ** What is drawn *)

(** A chart is represented by what the renderer is called with: the labels
    and sizes handed to [_plot_pie], or the text put in place of a pie. *)
Inductive chart :=
| Pie (labels : list string) (sizes : list Q)
| TextOnly (message : string).

Record dashboard := {
  ax_votes : chart;
  ax_comments : chart;
  ax_domains : chart;
  ax_ratio : chart
}.

(** [_plot_pie(ax, labels, sizes, palette, title)].  The pie is drawn by
    [ax.pie], which raises when a size is negative, when the sizes add up
    to zero (as they do when there is none), and when the labels are not as
    many as the sizes, in this order.  [ax.pie] tests the sizes as float32
    numbers; the sizes it is given here hold whole numbers below 2^64, whose
    sign and whose being zero the conversion keeps.  The colours, the
    percentage texts and the title raise nothing. *)
Definition _plot_pie (labels : list string) (sizes : list Q) : result chart :=
  if existsb (fun x => Qlt_bool x 0) sizes then Raise NegativeWedge
  else if Qeq_bool (sumQ sizes) 0 then Raise ZeroWedges
  else if negb (length labels =? length sizes)%nat then Raise LabelCount
  else Ok (Pie labels sizes).

(** Putting a chart on its axes: a pie through [_plot_pie], a text through
    [ax.text]. *)
Definition draw (c : chart) : result chart :=
  match c with
  | Pie labels sizes => _plot_pie labels sizes
  | TextOnly message => Ok (TextOnly message)
  end.

(** The charts that [draw] accepts. *)
Definition drawable (c : chart) : Prop :=
  match c with
  | Pie labels sizes =>
      Forall (fun x => 0 <= x) sizes ∧ 0 < sumQ sizes ∧ length labels = length sizes
  | TextOnly _ => True
  end.

(** Pie 4 as the renderer is asked for it.  The counts are int64 numbers
    below 2^53, which [astype(float)] leaves as they are. *)
Definition engagement_chart (df : list Story) : chart :=
  match engagement df with
  | [] => TextOnly "No engagement data"
  | rated =>
      let engagement_bins :=
        (fun row => cut engagement_edges engagement_labels row.2) <$> rated in
      let bucket_counts := value_counts engagement_labels engagement_bins in
      Pie (fst <$> bucket_counts)
          ((fun b => inject_Z (Z.of_nat b.2)) <$> bucket_counts)
  end.

(** ** Objects and the store *)

(** A DataFrame object: the loaded rows and the columns assigned to it by
    name. *)
Record DataFrame := {
  rows : list Story;
  assigned : gmap string (list string)
}.

Global Instance DataFrame_inhabited : Inhabited DataFrame :=
  populate {| rows := []; assigned := ∅ |}.

Abbreviation store := (gmap nat DataFrame).

(** Computations that read and write the store and may raise. *)
Definition M (A : Type) : Type := store -> result A * store.

Definition ret {A} (a : A) : M A := fun σ => (Ok a, σ).

Definition raise {A} (e : exn) : M A := fun σ => (Raise e, σ).

Definition bind {A B} (m : M A) (k : A -> M B) : M B :=
  fun σ =>
    match m σ with
    | (Ok a, σ') => k a σ'
    | (Raise e, σ') => (Raise e, σ')
    end.

Notation "'let!' x ':=' m 'in' k" := (bind m (fun x => k))
  (at level 10, x name, m at level 100, k at level 200).

Definition lift {A} (r : result A) : M A := fun σ => (r, σ).

(** A reference held by the program always points to an object. *)
Definition read (df : nat) : M DataFrame := fun σ => (Ok (σ !!! df), σ).

Definition alloc (f : DataFrame) : M nat :=
  fun σ => let l := fresh (dom σ) in (Ok l, <[l := f]> σ).

(** [df.copy()]: a new object with the same contents. *)
Definition copy (df : nat) : M nat :=
  let! f := read df in alloc f.

(** [df[column] = series]: the object itself is changed. *)
Definition setitem (df : nat) (column : string) (series : list string) : M unit :=
  fun σ =>
    let f := σ !!! df in
    (Ok tt, <[df := {| rows := rows f; assigned := <[column := series]> (assigned f) |}]> σ).

(** The rows of an object together with one of its assigned columns. *)
Definition with_column (df : nat) (column : string) : M (list (Story * string)) :=
  let! f := read df in
  match assigned f !! column with
  | Some series => ret (zip (rows f) series)
  | None => raise (KeyError column)
  end.

Section Dashboard.
Variable argsort_desc : list Z -> list nat.
(** [textwrap.shorten(text, width=width, placeholder=placeholder)] *)
Variable shorten : string -> Z -> string -> string.
Variable check_bracketed_netloc : string -> option string.
Variable check_nfkc : string -> option string.

Definition _short_titles (series : list cell) (width : Z) : list string :=
  (fun title => shorten (py_str title) width "…") <$> series.

(** Pie 1 and pie 2: the share of the top stories, by votes and by
    comments, labelled with the short titles. *)
Definition vote_share (titled : list (Story * string)) : chart :=
  let '(vote_labels, vote_sizes) :=
    _aggregate_top_share argsort_desc titled
      (fun r => Votes r.1) snd 5 "Other stories" in
  Pie vote_labels vote_sizes.

Definition comment_share (titled : list (Story * string)) : chart :=
  let '(comment_labels, comment_sizes) :=
    _aggregate_top_share argsort_desc titled
      (fun r => Comments r.1) snd 5 "Other stories" in
  Pie comment_labels comment_sizes.

(** Pie 3: the votes added up by domain, then the share of the top
    domains. *)
Definition domain_share (by_domain : list (Story * string)) : chart :=
  let domain_votes := groupby_sum snd (fun r => Votes r.1) by_domain in
  let '(domain_labels, domain_sizes) :=
    _aggregate_top_share argsort_desc domain_votes snd fst 6 "Other domains" in
  Pie domain_labels domain_sizes.

Definition plot_visualizations (df : nat) : M dashboard :=
  let! df := copy df in
  let! f := read df in
  let! _ := setitem df "TitleShort" (_short_titles (Title <$> rows f) 40) in
  (* Pie 1: vote share of top stories *)
  let! titled := with_column df "TitleShort" in
  let! votes := lift (draw (vote_share titled)) in
  (* Pie 2: comment share of top stories *)
  let! titled := with_column df "TitleShort" in
  let! comments := lift (draw (comment_share titled)) in
  (* Pie 3: vote share by domain *)
  let! f := read df in
  let! domains := lift (apply_series (domain_label check_bracketed_netloc check_nfkc)
                          (URL <$> rows f)) in
  let! _ := setitem df "Domain" domains in
  let! by_domain := with_column df "Domain" in
  let! domains := lift (draw (domain_share by_domain)) in
  (* Pie 4: engagement levels *)
  let! f := read df in
  let! ratio := lift (draw (engagement_chart (rows f))) in
  ret {| ax_votes := votes;
         ax_comments := comments;
         ax_domains := domains;
         ax_ratio := ratio |}.

(** The four charts asked for a table whose URLs have the given domain
    labels. *)
Definition dashboard_of (table : list Story) (domains : list string) : dashboard :=
  let titled := zip table (_short_titles (Title <$> table) 40) in
  {| ax_votes := vote_share titled;
     ax_comments := comment_share titled;
     ax_domains := domain_share (zip table domains);
     ax_ratio := engagement_chart table |}.

(** The steps of [plot_visualizations] that can raise, in the order of the
    source, on the rows alone. *)
Definition draw_dashboard (table : list Story) : result dashboard :=
  let titled := zip table (_short_titles (Title <$> table) 40) in
  result_bind (draw (vote_share titled)) (fun votes =>
  result_bind (draw (comment_share titled)) (fun comments =>
  result_bind (apply_series (domain_label check_bracketed_netloc check_nfkc)
                 (URL <$> table)) (fun domains =>
  result_bind (draw (domain_share (zip table domains))) (fun by_domain =>
  result_bind (draw (engagement_chart table)) (fun ratio =>
  Ok {| ax_votes := votes;
        ax_comments := comments;
        ax_domains := by_domain;
        ax_ratio := ratio |}))))).

(** ** The driver *)

Context {RawCell : Type}.
Variable to_numeric : RawCell -> option Z.

(** [Path(__file__).with_name("hackernews.csv")] *)
Definition data_path (script_dir : string) : string :=
  (script_dir +:+ "/hackernews.csv")%string.

(** The file system maps the paths that exist to the table [read_csv]
    reads from them. *)
Definition main (script_dir : string) (files : gmap string (list (CsvRow RawCell)))
  : M dashboard :=
  match files !! data_path script_dir with
  | None =>
      raise (DatasetNotFound (data_path script_dir))
  | Some data =>
      let! df := alloc {| rows := load_hackernews to_numeric data; assigned := ∅ |} in
      let! f := read df in
      match rows f with
      | [] => raise NoValidRows
      | _ => plot_visualizations df
      end
  end.
End Dashboard.

(** ** Sample data *)

(** The three stories of the specification's end-to-end example. *)
Definition story_A : Story :=
  {| Title := Text "A"; URL := Text "http://x.com"; Votes := 100; Comments := 50 |}.
Definition story_B : Story :=
  {| Title := Text "B"; URL := Text "http://y.com"; Votes := 50; Comments := 10 |}.
Definition story_C : Story :=
  {| Title := Text "C"; URL := Text "http://x.com"; Votes := 10; Comments := 100 |}.

Definition sample_table : list Story := [story_A; story_B; story_C].

(** A story with as many comments as votes, and one with half as many. *)
Definition story_even : Story :=
  {| Title := Text "even"; URL := NaN; Votes := 4; Comments := 4 |}.
Definition story_half : Story :=
  {| Title := Text "half"; URL := NaN; Votes := 4; Comments := 2 |}.

(** A story without votes, and a story whose two counts are negative. *)
Definition story_unvoted : Story :=
  {| Title := Text "unvoted"; URL := NaN; Votes := 0; Comments := 7 |}.
Definition story_negative : Story :=
  {| Title := Text "negative"; URL := NaN; Votes := -2; Comments := -4 |}.

(** Five stories with half as many comments as votes, followed by the one
    with negative counts and the one without votes. *)
Definition mixed_table : list Story :=
  [story_half; story_half; story_half; story_half; story_half;
   story_negative; story_unvoted].

(** Three stories with 2^62 votes each: no single cell is out of the int64
    range, their sum is. *)
Definition huge_table : list (string * Z) :=
  [("A", 2 ^ 62); ("B", 2 ^ 62); ("C", 2 ^ 62)]%string%Z.

Definition title_of (r : Story) : string := py_str (Title r).

(** A [shorten] that leaves short texts as they are. *)
Definition keep_text (text : string) (width : Z) (placeholder : string) : string := text.

(** A CSV file whose numeric cells are already numbers or text that does
    not read as a number; the second row has such a Votes cell. *)
Definition sample_numeric (raw : option Z) : option Z := raw.

Definition sample_csv : list (CsvRow (option Z)) :=
  [ {| csv_Title := Text "A"; csv_URL := Text "http://x.com";
       csv_Votes := Some 100%Z; csv_Comments := Some 50%Z |};
    {| csv_Title := Text "B"; csv_URL := Text "http://y.com";
       csv_Votes := None; csv_Comments := Some 10%Z |};
    {| csv_Title := Text "C"; csv_URL := Text "http://x.com";
       csv_Votes := Some 10%Z; csv_Comments := Some 100%Z |} ].

Definition sample_files : gmap string (list (CsvRow (option Z))) :=
  {[ "/srv/hn/hackernews.csv"%string := sample_csv ]}.

(** A store that holds the sample table as its only object. *)
Definition sample_frame : DataFrame := {| rows := sample_table; assigned := ∅ |}.
Definition sample_store : store := {[ 0%nat := sample_frame ]}.

(** The charts of the sample table. *)
Definition sample_charts : dashboard :=
  {| ax_votes := Pie ["A"; "B"; "C"]%string [100; 50; 10];
     ax_comments := Pie ["C"; "A"; "B"]%string [100; 50; 10];
     ax_domains := Pie ["x.com"; "y.com"]%string [110; 50];
     ax_ratio := Pie engagement_labels [inject_Z 2; inject_Z 0; inject_Z 1] |}.

(** * Properties *)

(** ** Sums *)

Lemma Qlt_bool_true (x y : Q) : Qlt_bool x y = true <-> x < y.
Proof.
  unfold Qlt_bool. rewrite negb_true_iff, <- not_true_iff_false, Qle_bool_iff.
  split; [apply Qnot_le_lt | apply Qlt_not_le].
Qed.

Lemma Qlt_bool_false (x y : Q) : Qlt_bool x y = false <-> y <= x.
Proof.
  unfold Qlt_bool. rewrite negb_false_iff. apply Qle_bool_iff.
Qed.

Lemma sumQ_cons (x : Q) (xs : list Q) : sumQ (x :: xs) = x + sumQ xs.
Proof. reflexivity. Qed.

Lemma sumQ_app (xs ys : list Q) : sumQ (xs ++ ys) == sumQ xs + sumQ ys.
Proof.
  induction xs as [|x xs IH]; simpl.
  - lra.
  - unfold sumQ in *. simpl. rewrite IH. lra.
Qed.

Lemma sumQ_nonneg (xs : list Q) : Forall (fun x => 0 <= x) xs -> 0 <= sumQ xs.
Proof.
  induction 1 as [|x xs Hx _ IH]; unfold sumQ in *; simpl; lra.
Qed.

(** Sizes that are not negative add up to zero only when each is zero. *)
Lemma sumQ_zero (xs : list Q) :
  Forall (fun x => 0 <= x) xs -> sumQ xs == 0 -> Forall (fun x => x == 0) xs.
Proof.
  induction 1 as [|x xs Hx Hxs IH]; [constructor|].
  rewrite sumQ_cons. intros Hsum. pose proof (sumQ_nonneg xs Hxs).
  constructor; [lra|]. apply IH. lra.
Qed.

Lemma sumQ_inject_Z (xs : list Z) : sumQ (inject_Z <$> xs) == inject_Z (sumZ xs).
Proof.
  induction xs as [|x xs IH]; [reflexivity|].
  rewrite fmap_cons, sumQ_cons, IH. unfold sumZ. simpl. by rewrite inject_Z_plus.
Qed.

Section IntegerSums.
Local Open Scope Z_scope.

Lemma sumZ_cons (x : Z) (xs : list Z) : sumZ (x :: xs) = x + sumZ xs.
Proof. reflexivity. Qed.

Lemma sumZ_app (xs ys : list Z) : sumZ (xs ++ ys) = sumZ xs + sumZ ys.
Proof.
  induction xs as [|x xs IH]; [done|].
  rewrite <- app_comm_cons, !sumZ_cons, IH. lia.
Qed.

Lemma sumZ_Permutation (xs ys : list Z) : xs ≡ₚ ys -> sumZ xs = sumZ ys.
Proof.
  induction 1 as [|x xs ys _ IH|x y xs|xs ys zs _ IH1 _ IH2];
    rewrite ?sumZ_cons; lia.
Qed.

Lemma sumZ_nonneg (xs : list Z) : Forall (fun x => 0 <= x) xs -> 0 <= sumZ xs.
Proof.
  induction 1 as [|x xs Hx _ IH]; rewrite ?sumZ_cons; [done|lia].
Qed.

(** No element of a list of numbers that are not negative exceeds the sum of
    the list. *)
Lemma sumZ_elem_le (xs : list Z) (x : Z) :
  Forall (fun y => 0 <= y) xs -> x ∈ xs -> x <= sumZ xs.
Proof.
  induction 1 as [|y xs Hy Hxs IH]; [by inversion 1|].
  rewrite elem_of_cons, sumZ_cons. pose proof (sumZ_nonneg xs Hxs).
  intros [->|Hin]; [lia|]. specialize (IH Hin). lia.
Qed.

(** ** Arithmetic on int64 *)

Lemma int64_modulus : 2 ^ 64 = 2 * 2 ^ 63 ∧ 0 < 2 ^ 63.
Proof. split; reflexivity. Qed.

Lemma wrap_int64_range (z : Z) : - 2 ^ 63 <= wrap_int64 z < 2 ^ 63.
Proof.
  unfold wrap_int64. destruct int64_modulus as [Hm Hp].
  pose proof (Z.mod_pos_bound (z + 2 ^ 63) (2 ^ 64)). lia.
Qed.

Lemma wrap_int64_id (z : Z) : - 2 ^ 63 <= z < 2 ^ 63 -> wrap_int64 z = z.
Proof.
  intros H. unfold wrap_int64. destruct int64_modulus as [Hm Hp].
  rewrite Z.mod_small by lia. lia.
Qed.

Lemma wrap_int64_multiple (z k : Z) : wrap_int64 (z + k * 2 ^ 64) = wrap_int64 z.
Proof.
  unfold wrap_int64.
  replace (z + k * 2 ^ 64 + 2 ^ 63) with (z + 2 ^ 63 + k * 2 ^ 64) by lia.
  by rewrite Z_mod_plus_full.
Qed.

Lemma wrap_int64_spec (z : Z) : ∃ k, wrap_int64 z = z + k * 2 ^ 64.
Proof.
  exists (- ((z + 2 ^ 63) / 2 ^ 64)). unfold wrap_int64.
  rewrite Z.mod_eq by done. lia.
Qed.

Lemma wrap_int64_add_l (a b : Z) : wrap_int64 (wrap_int64 a + b) = wrap_int64 (a + b).
Proof.
  destruct (wrap_int64_spec a) as [k ->].
  replace (a + k * 2 ^ 64 + b) with (a + b + k * 2 ^ 64) by lia.
  apply wrap_int64_multiple.
Qed.

Lemma wrap_int64_add_r (a b : Z) : wrap_int64 (a + wrap_int64 b) = wrap_int64 (a + b).
Proof. rewrite (Z.add_comm a), wrap_int64_add_l. f_equal. lia. Qed.

Lemma wrap_int64_sub (a b : Z) :
  wrap_int64 (wrap_int64 a - wrap_int64 b) = wrap_int64 (a - b).
Proof.
  destruct (wrap_int64_spec a) as [k ->]. destruct (wrap_int64_spec b) as [l ->].
  replace (a + k * 2 ^ 64 - (b + l * 2 ^ 64)) with (a - b + (k - l) * 2 ^ 64) by lia.
  apply wrap_int64_multiple.
Qed.

Lemma wrap_int64_idemp (z : Z) : wrap_int64 (wrap_int64 z) = wrap_int64 z.
Proof. apply wrap_int64_id, wrap_int64_range. Qed.

Lemma Series_sum_Permutation (xs ys : list Z) : xs ≡ₚ ys -> Series_sum xs = Series_sum ys.
Proof. intros H. unfold Series_sum. by rewrite (sumZ_Permutation _ _ H). Qed.

Lemma Series_sum_cons (x : Z) (xs : list Z) :
  Series_sum (x :: xs) = wrap_int64 (x + Series_sum xs).
Proof. unfold Series_sum. by rewrite sumZ_cons, wrap_int64_add_r. Qed.

(** A sum that fits the int64 range is the exact sum. *)
Lemma Series_sum_exact (xs : list Z) :
  - 2 ^ 63 <= sumZ xs < 2 ^ 63 -> Series_sum xs = sumZ xs.
Proof. apply wrap_int64_id. Qed.

(** ** The conversion to float *)

Lemma float_ulp_pos (z : Z) : 0 < float_ulp z.
Proof. unfold float_ulp. apply Z.pow_pos_nonneg; lia. Qed.

Lemma float_ulp_small (z : Z) : Z.abs z < 2 ^ 53 -> float_ulp z = 1.
Proof.
  intros H. unfold float_ulp.
  assert (Z.log2 (Z.abs z) < 53) as Hlog.
  { destruct (Z.eq_dec (Z.abs z) 0) as [->|Hz]; [done|].
    apply Z.log2_lt_pow2; lia. }
  by replace (Z.max 0 (Z.log2 (Z.abs z) - 52)) with 0 by lia.
Qed.

Lemma round_half_even_multiple (q u : Z) : 0 < u -> round_half_even (q * u) u = q * u.
Proof.
  intros Hu. unfold round_half_even.
  rewrite Z.div_mul, Z.mod_mul by lia.
  destruct (Z.ltb_spec (2 * 0) u); [done|lia].
Qed.

Lemma round_half_even_mono (n1 n2 u : Z) :
  0 < u -> n1 <= n2 -> round_half_even n1 u <= round_half_even n2 u.
Proof.
  intros Hu Hle. unfold round_half_even.
  pose proof (Z.div_mod n1 u) as H1. pose proof (Z.div_mod n2 u) as H2.
  pose proof (Z.mod_pos_bound n1 u Hu) as Hr1.
  pose proof (Z.mod_pos_bound n2 u Hu) as Hr2.
  pose proof (Z.div_le_mono n1 n2 u Hu Hle) as Hq.
  apply Z.mul_le_mono_nonneg_r; [lia|].
  destruct (Z.eq_dec (n1 / u) (n2 / u)) as [Heq|Hne].
  - rewrite Heq in *. assert (n1 mod u <= n2 mod u) as Hr by lia.
    repeat match goal with
           | |- context [Z.ltb ?a ?b] => destruct (Z.ltb_spec a b)
           | |- context [Z.even ?a] => destruct (Z.even a)
           end; lia.
  - repeat match goal with
           | |- context [Z.ltb ?a ?b] => destruct (Z.ltb_spec a b)
           | |- context [Z.even ?a] => destruct (Z.even a)
           end; lia.
Qed.

(** The float nearest to a number that is not negative. *)
Local Abbreviation nearest n := (round_half_even n (float_ulp n)).

Lemma nearest_small (n : Z) : 0 <= n <= 2 ^ 53 -> nearest n = n.
Proof.
  intros [H0 H]. destruct (Z.eq_dec n (2 ^ 53)) as [->|Hne]; [by vm_compute|].
  rewrite float_ulp_small by lia.
  rewrite <- (Z.mul_1_r n) at 1. rewrite round_half_even_multiple by lia. lia.
Qed.

(** A number of [k+1] bits, [k] at least 53, is rounded within its binade
    [2^k, 2^(k+1)]. *)
Lemma nearest_binade (n : Z) :
  2 ^ 53 <= n ->
  2 ^ Z.log2 n <= nearest n <= 2 ^ (Z.log2 n + 1).
Proof.
  intros Hn. assert (0 < n) as Hpos by (pose proof (Z.pow_pos_nonneg 2 53); lia).
  destruct (Z.log2_spec n Hpos) as [Hlow Hhigh].
  assert (53 <= Z.log2 n) as Hlog by (by apply Z.log2_le_pow2).
  assert (float_ulp n = 2 ^ (Z.log2 n - 52)) as Hulp.
  { unfold float_ulp. rewrite Z.abs_eq by lia. f_equal. lia. }
  pose proof (float_ulp_pos n) as Hu. rewrite Hulp in *.
  assert (2 ^ Z.log2 n = 2 ^ 52 * 2 ^ (Z.log2 n - 52)) as Hk.
  { rewrite <- Z.pow_add_r by lia. f_equal. lia. }
  assert (2 ^ (Z.log2 n + 1) = 2 ^ 53 * 2 ^ (Z.log2 n - 52)) as Hk1.
  { rewrite <- Z.pow_add_r by lia. f_equal. lia. }
  rewrite Z.add_1_r in Hk1 |- *. split.
  - rewrite Hk at 1. rewrite <- (round_half_even_multiple (2 ^ 52) _ Hu).
    apply round_half_even_mono; lia.
  - rewrite Hk1 at 1. rewrite <- (round_half_even_multiple (2 ^ 53) _ Hu).
    apply round_half_even_mono; lia.
Qed.

Lemma nearest_nonneg (n : Z) : 0 <= n -> 0 <= nearest n.
Proof.
  intros Hn. pose proof (float_ulp_pos n) as Hu.
  rewrite <- (round_half_even_multiple 0 _ Hu) at 1.
  apply round_half_even_mono; lia.
Qed.

Lemma nearest_mono (n1 n2 : Z) : 0 <= n1 <= n2 -> nearest n1 <= nearest n2.
Proof.
  intros [H0 Hle].
  destruct (Z.le_gt_cases n2 (2 ^ 53)) as [Hsmall|Hbig].
  { rewrite !nearest_small by lia. done. }
  destruct (Z.le_gt_cases n1 (2 ^ 53)) as [Hsmall1|Hbig1].
  { rewrite (nearest_small n1) by lia.
    pose proof (nearest_binade n2 ltac:(lia)) as [Hlow _].
    assert (2 ^ 53 <= 2 ^ Z.log2 n2); [|lia].
    apply Z.pow_le_mono_r; [lia|]. apply Z.log2_le_pow2; lia. }
  pose proof (Z.log2_le_mono n1 n2 Hle) as Hlog.
  destruct (Z.eq_dec (Z.log2 n1) (Z.log2 n2)) as [Heq|Hne].
  - unfold float_ulp. rewrite !Z.abs_eq, Heq by lia.
    apply round_half_even_mono; [|done]. apply Z.pow_pos_nonneg; lia.
  - pose proof (nearest_binade n1 ltac:(lia)) as [_ Hhigh].
    pose proof (nearest_binade n2 ltac:(lia)) as [Hlow _].
    assert (2 ^ (Z.log2 n1 + 1) <= 2 ^ Z.log2 n2); [|lia].
    apply Z.pow_le_mono_r; lia.
Qed.

Lemma nearest_float_exact (z : Z) : Z.abs z <= 2 ^ 53 -> nearest_float z = z.
Proof.
  intros H. unfold nearest_float.
  assert (float_ulp z = float_ulp (Z.abs z)) as -> by (unfold float_ulp; by rewrite Z.abs_idemp).
  rewrite nearest_small by lia. lia.
Qed.

Lemma nearest_float_mono (a b : Z) : a <= b -> nearest_float a <= nearest_float b.
Proof.
  intros Hle. unfold nearest_float.
  assert (∀ z, float_ulp z = float_ulp (Z.abs z)) as Hulp.
  { intros z. unfold float_ulp. by rewrite Z.abs_idemp. }
  rewrite (Hulp a), (Hulp b).
  pose proof (nearest_nonneg (Z.abs a) (Z.abs_nonneg a)) as Ha.
  pose proof (nearest_nonneg (Z.abs b) (Z.abs_nonneg b)) as Hb.
  destruct (Z.lt_trichotomy a 0) as [Hneg|[->|Hpos]].
  - rewrite (Z.sgn_neg a) by done.
    destruct (Z.lt_trichotomy b 0) as [Hnegb|[->|Hposb]].
    + pose proof (nearest_mono (Z.abs b) (Z.abs a) ltac:(lia)).
      rewrite (Z.sgn_neg b) by done. lia.
    + simpl. lia.
    + rewrite (Z.sgn_pos b) by done. lia.
  - destruct (Z.lt_trichotomy b 0) as [Hnegb|[->|Hposb]]; [lia|done|].
    rewrite (Z.sgn_pos b) by done. simpl. lia.
  - pose proof (nearest_mono (Z.abs a) (Z.abs b) ltac:(lia)).
    rewrite (Z.sgn_pos a), (Z.sgn_pos b) by lia. lia.
Qed.
End IntegerSums.

Lemma astype_float_exact (z : Z) : (Z.abs z <= 2 ^ 53)%Z -> astype_float z = inject_Z z.
Proof. intros H. unfold astype_float. by rewrite nearest_float_exact. Qed.

Lemma astype_float_mono (a b : Z) : (a <= b)%Z -> astype_float a <= astype_float b.
Proof.
  intros H. unfold astype_float. rewrite <- Zle_Qle. by apply nearest_float_mono.
Qed.

(** The conversion keeps the sign of a cell, and only zero becomes zero. *)
Lemma astype_float_sign (z : Z) :
  (astype_float z < 0 <-> (z < 0)%Z) ∧ (astype_float z == 0 <-> z = 0%Z)
  ∧ (0 < astype_float z <-> (0 < z)%Z).
Proof.
  assert (astype_float 0 = 0) as H0 by reflexivity.
  assert (astype_float 1 = 1) as H1 by reflexivity.
  assert (astype_float (-1) = -1) as Hm1 by reflexivity.
  destruct (Z.lt_trichotomy z 0) as [Hneg|[->|Hpos]].
  - pose proof (astype_float_mono z (-1) ltac:(lia)) as H. rewrite Hm1 in H.
    split_and!; split; intros; try lia; try lra.
  - rewrite H0. split_and!; split; intros; try lia; try lra; try done.
  - pose proof (astype_float_mono 1 z ltac:(lia)) as H. rewrite H1 in H.
    split_and!; split; intros; try lia; try lra.
Qed.

Lemma astype_float_nonneg (z : Z) : (0 <= z)%Z -> 0 <= astype_float z.
Proof.
  intros H. change 0 with (astype_float 0). by apply astype_float_mono.
Qed.

(** The sizes of cells whose total does not exceed 2^53 in magnitude are the
    cells themselves. *)
Lemma astype_float_sum (xs : list Z) :
  Forall (fun x => (0 <= x)%Z) xs -> (sumZ xs <= 2 ^ 53)%Z ->
  astype_float <$> xs = inject_Z <$> xs.
Proof.
  intros Hpos Hsum. apply list_fmap_ext. intros i x Hx.
  apply astype_float_exact.
  assert (x ∈ xs) as Hin by (by eapply list_elem_of_lookup_2).
  pose proof (sumZ_elem_le xs x Hpos Hin). rewrite Forall_forall in Hpos.
  specialize (Hpos x Hin). lia.
Qed.

(** ** Rows taken by position *)

Lemma take_rows_fmap {A B} (f : A -> B) (indexer : list nat) (l : list A) :
  f <$> take_rows indexer l = take_rows indexer (f <$> l).
Proof.
  unfold take_rows. induction indexer as [|i indexer IH]; csimpl; [done|].
  rewrite list_lookup_fmap. destruct (l !! i); csimpl; by rewrite <- IH.
Qed.

Lemma take_rows_seq {A} (l1 l2 : list A) :
  take_rows (seq (length l1) (length l2)) (l1 ++ l2) = l2.
Proof.
  unfold take_rows. revert l1. induction l2 as [|x l2 IH]; intros l1; simpl; [done|].
  rewrite list_lookup_middle by done. simpl. f_equal.
  specialize (IH (l1 ++ [x])). rewrite length_app, <- app_assoc in IH. simpl in IH.
  by rewrite Nat.add_1_r in IH.
Qed.

Lemma take_rows_all {A} (l : list A) : take_rows (seq 0 (length l)) l = l.
Proof. exact (take_rows_seq [] l). Qed.

Lemma take_rows_Permutation {A} (indexer : list nat) (l : list A) :
  indexer ≡ₚ seq 0 (length l) -> take_rows indexer l ≡ₚ l.
Proof.
  intros H. rewrite <- (take_rows_all l) at 2.
  unfold take_rows. by apply omap_Permutation.
Qed.

Lemma take_rows_nil {A} (indexer : list nat) : take_rows indexer (@nil A) = [].
Proof. unfold take_rows. by induction indexer. Qed.

Lemma take_rows_elem_of {A} (indexer : list nat) (l : list A) (x : A) :
  x ∈ take_rows indexer l -> x ∈ l.
Proof.
  unfold take_rows. rewrite list_elem_of_omap. intros (i & _ & Hi).
  by eapply list_elem_of_lookup_2.
Qed.

(** ** The first rows *)

Lemma df_head_prefix {A} (n : Z) (l : list A) : ∃ rest, l = df_head n l ++ rest.
Proof.
  unfold df_head. destruct (0 <=? n)%Z; eexists; symmetry; apply take_drop.
Qed.

Lemma df_head_length {A} (n : Z) (l : list A) :
  (0 <= n)%Z -> length (df_head n l) = Nat.min (Z.to_nat n) (length l).
Proof.
  intros Hn. unfold df_head. destruct (Z.leb_spec 0 n); [|lia].
  apply length_take.
Qed.

Lemma df_head_all {A} (n : Z) (l : list A) :
  (Z.of_nat (length l) <= n)%Z -> df_head n l = l.
Proof.
  intros Hn. unfold df_head. destruct (Z.leb_spec 0 n); [|lia].
  apply take_ge. lia.
Qed.

Lemma df_head_fmap {A B} (f : A -> B) (n : Z) (l : list A) :
  f <$> df_head n l = df_head n (f <$> l).
Proof.
  unfold df_head. rewrite length_fmap. destruct (0 <=? n)%Z; apply fmap_take.
Qed.

Lemma df_head_elem_of {A} (n : Z) (l : list A) (x : A) : x ∈ df_head n l -> x ∈ l.
Proof.
  destruct (df_head_prefix n l) as [rest Hrest]. intros H.
  rewrite Hrest. apply elem_of_app. by left.
Qed.

Lemma df_head_length_le {A} (n : Z) (l : list A) :
  (0 <= n)%Z -> (length (df_head n l) <= Z.to_nat n)%nat.
Proof. intros H. rewrite df_head_length by done. lia. Qed.

Lemma df_head_negative {A} (n : Z) (l : list A) :
  (n < 0)%Z -> length (df_head n l) = (length l - Z.to_nat (- n))%nat.
Proof.
  intros H. unfold df_head. destruct (Z.leb_spec 0 n); [lia|].
  rewrite length_take. lia.
Qed.

Lemma df_head_zero {A} (l : list A) : df_head 0 l = [].
Proof. reflexivity. Qed.

(** ** The aggregator *)

Lemma descending_sizes_fmap (xs : list Z) :
  descending xs -> descending_sizes (astype_float <$> xs).
Proof.
  unfold descending, descending_sizes. intros H.
  eapply StronglySorted_fmap; [|exact H]. intros a b. apply astype_float_mono.
Qed.

Section AggregatorProperties.
Local Open Scope Z_scope.
Variable argsort_desc : list Z -> list nat.
Context {R : Type}.
Variables (df : list R) (value_col : R -> Z) (label_col : R -> string).
Variables (top_n : Z) (other_label : string).

Let keys := value_col <$> df.
Let ordered_rows := ordered argsort_desc df value_col label_col.
Let top_rows := top argsort_desc df value_col label_col top_n.
Let rest_sum := remainder argsort_desc df value_col label_col top_n.

Lemma ordered_values :
  snd <$> ordered_rows = take_rows (argsort_desc keys) keys.
Proof.
  unfold ordered_rows, ordered, sort_values, keys.
  rewrite <- list_fmap_compose, take_rows_fmap. done.
Qed.

Lemma ordered_labels :
  fst <$> ordered_rows = label_col <$> sort_values argsort_desc df value_col.
Proof. unfold ordered_rows, ordered. by rewrite <- list_fmap_compose. Qed.

Lemma sort_values_Permutation :
  argsort_desc keys ≡ₚ seq 0 (length keys) ->
  sort_values argsort_desc df value_col ≡ₚ df.
Proof.
  intros H. apply take_rows_Permutation.
  unfold keys in H. by rewrite length_fmap in H.
Qed.

Lemma ordered_length :
  argsort_desc keys ≡ₚ seq 0 (length keys) ->
  length ordered_rows = length df.
Proof.
  intros H. unfold ordered_rows, ordered. rewrite length_fmap.
  by rewrite (sort_values_Permutation H).
Qed.

Lemma ordered_Permutation :
  argsort_desc keys ≡ₚ seq 0 (length keys) ->
  snd <$> ordered_rows ≡ₚ keys.
Proof. intros H. rewrite ordered_values. by apply take_rows_Permutation. Qed.

Lemma ordered_sum :
  argsort_desc keys ≡ₚ seq 0 (length keys) ->
  sumZ (snd <$> ordered_rows) = sumZ keys.
Proof. intros H. by apply sumZ_Permutation, ordered_Permutation. Qed.

Lemma top_prefix : ∃ rest, ordered_rows = top_rows ++ rest.
Proof. apply df_head_prefix. Qed.

(** The remainder is the int64 sum of the rows that are cut off. *)
Lemma remainder_rest (rest : list (string * Z)) :
  ordered_rows = top_rows ++ rest -> rest_sum = Series_sum (snd <$> rest).
Proof.
  intros H. unfold rest_sum, remainder. fold ordered_rows top_rows.
  unfold Series_sum. rewrite wrap_int64_sub, H, fmap_app, sumZ_app. f_equal. lia.
Qed.

Lemma top_descending :
  argsort_desc_spec keys (argsort_desc keys) -> descending (snd <$> top_rows).
Proof.
  intros [_ Hsorted]. destruct top_prefix as [rest Hrest].
  rewrite <- ordered_values, Hrest, fmap_app in Hsorted.
  by apply StronglySorted_app_1_l in Hsorted.
Qed.

(** The slices are the top rows, followed by the synthetic row exactly
    when the remainder is positive. *)
Lemma aggregate_cases :
  let out := _aggregate_top_share argsort_desc df value_col label_col top_n other_label in
  (rest_sum <= 0 ∧ out = (fst <$> top_rows, astype_float <$> (snd <$> top_rows)))
  ∨ (0 < rest_sum
     ∧ out = ((fst <$> top_rows) ++ [other_label],
              (astype_float <$> (snd <$> top_rows)) ++ [astype_float rest_sum])).
Proof.
  unfold _aggregate_top_share. fold rest_sum top_rows.
  destruct (Z.ltb_spec 0 rest_sum).
  - right. by rewrite !fmap_app.
  - by left.
Qed.

(** An empty table gives two empty sequences, whatever the argsort
    returns. *)
Lemma aggregate_empty :
  df = [] ->
  _aggregate_top_share argsort_desc df value_col label_col top_n other_label = ([], []).
Proof.
  intros ->. unfold _aggregate_top_share, remainder, top, ordered, sort_values.
  rewrite take_rows_nil. unfold df_head. simpl.
  destruct (0 <=? top_n)%Z; simpl; [|done].
  by rewrite !take_nil.
Qed.

(** The integers behind the sizes: the values of the top rows, followed by
    the remainder when it is positive. *)
Lemma aggregate_parts :
  let out := _aggregate_top_share argsort_desc df value_col label_col top_n other_label in
  ∃ parts, out.2 = astype_float <$> parts
           ∧ (parts = snd <$> top_rows ∧ rest_sum <= 0
              ∨ parts = (snd <$> top_rows) ++ [rest_sum] ∧ 0 < rest_sum).
Proof.
  destruct aggregate_cases as [[Hle ->]|[Hlt ->]]; simpl.
  - exists (snd <$> top_rows). auto.
  - exists ((snd <$> top_rows) ++ [rest_sum]). rewrite fmap_app. auto.
Qed.

(** Over values that are not negative and whose total fits an int64, no sum
    of the aggregator wraps around: the rows kept and the remainder make up
    the total. *)
Lemma aggregate_parts_total :
  Forall (fun r => 0 <= value_col r) df ->
  sumZ keys < 2 ^ 63 ->
  argsort_desc keys ≡ₚ seq 0 (length keys) ->
  let out := _aggregate_top_share argsort_desc df value_col label_col top_n other_label in
  ∃ parts, out.2 = astype_float <$> parts
           ∧ Forall (fun x => 0 <= x) parts
           ∧ sumZ parts = sumZ keys.
Proof.
  intros Hpos Hfit Hperm out.
  destruct top_prefix as [rest Hrest].
  pose proof (remainder_rest rest Hrest) as Hrem.
  pose proof (ordered_sum Hperm) as Hsum.
  assert (Forall (fun x => 0 <= x) (snd <$> ordered_rows)) as Hall.
  { rewrite (ordered_Permutation Hperm). unfold keys. by apply Forall_fmap. }
  rewrite Hrest, fmap_app in Hall, Hsum. rewrite sumZ_app in Hsum.
  apply Forall_app in Hall as [Htop Hcut].
  pose proof (sumZ_nonneg _ Htop). pose proof (sumZ_nonneg _ Hcut).
  rewrite Series_sum_exact in Hrem by lia.
  destruct aggregate_parts as (parts & Hout & [[-> Hle]|[-> Hlt]]);
    eexists; (split; [exact Hout|]).
  - split; [done|]. lia.
  - split.
    + apply Forall_app. split; [done|]. constructor; [lia|constructor].
    + rewrite sumZ_app, sumZ_cons. unfold sumZ at 2. simpl. lia.
Qed.

Lemma aggregate_sum_total :
  Forall (fun r => 0 <= value_col r) df ->
  sumZ keys <= 2 ^ 53 ->
  argsort_desc keys ≡ₚ seq 0 (length keys) ->
  (sumQ (_aggregate_top_share argsort_desc df value_col label_col top_n other_label).2
   == inject_Z (sumZ keys))%Q.
Proof.
  intros Hpos Hsmall Hperm.
  assert (sumZ keys < 2 ^ 63) as Hfit.
  { eapply Z.le_lt_trans; [exact Hsmall|reflexivity]. }
  destruct (aggregate_parts_total Hpos Hfit Hperm) as (parts & Hout & Hparts & Hsum).
  rewrite Hout, astype_float_sum by (by rewrite ?Hsum).
  by rewrite sumQ_inject_Z, Hsum.
Qed.

(** C3 (as amended): over a table whose values are not negative and whose
    total is below 2^63, the sizes returned by the aggregator are the floats
    nearest to integers that are not negative and add up to the total of
    the column, with or without the "Other" slice; when the total is at most
    2^53 the conversions are exact and the sizes themselves add up to the
    total. *)
Theorem aggregate_sizes_sum :
  Forall (fun r => 0 <= value_col r) df ->
  sumZ (value_col <$> df) < 2 ^ 63 ->
  argsort_desc_spec keys (argsort_desc keys) ->
  let out := _aggregate_top_share argsort_desc df value_col label_col top_n other_label in
  ∃ parts : list Z,
    out.2 = astype_float <$> parts
    ∧ Forall (fun x => 0 <= x) parts
    ∧ sumZ parts = sumZ (value_col <$> df)
    ∧ (sumZ (value_col <$> df) <= 2 ^ 53 ->
       (sumQ out.2 == inject_Z (sumZ (value_col <$> df)))%Q).
Proof.
  intros Hpos Hfit [Hperm _] out.
  destruct (aggregate_parts_total Hpos Hfit Hperm) as (parts & Hout & Hparts & Hsum).
  exists parts. split_and!; [done..|].
  intros Hsmall. by apply aggregate_sum_total.
Qed.

(** C4: with [top_n] rows asked for, the label and size sequences have
    length min(top_n, row count) when the remainder is not positive and
    one more when it is positive; when [top_n] is at least the row count
    no "Other" slice is produced; an empty table gives two empty
    sequences. *)
Theorem aggregate_lengths :
  (0 <= top_n)%Z ->
  argsort_desc_spec keys (argsort_desc keys) ->
  let out := _aggregate_top_share argsort_desc df value_col label_col top_n other_label in
  let kept := Nat.min (Z.to_nat top_n) (length df) in
  length out.1 = length out.2
  ∧ (rest_sum <= 0 -> length out.2 = kept)
  ∧ (0 < rest_sum -> length out.2 = S kept)
  ∧ ((Z.of_nat (length df) <= top_n)%Z ->
     out = (fst <$> ordered_rows, astype_float <$> (snd <$> ordered_rows))
     ∧ length out.2 = length df)
  ∧ (df = [] -> out = ([], [])).
Proof.
  intros Hn [Hperm _] out kept.
  assert (length top_rows = kept) as Hkept.
  { unfold top_rows, top. rewrite df_head_length by done.
    fold ordered_rows. by rewrite (ordered_length Hperm). }
  assert ((Z.of_nat (length df) <= top_n)%Z -> top_rows = ordered_rows) as Hall.
  { intros Hge. apply df_head_all. fold ordered_rows.
    by rewrite (ordered_length Hperm). }
  split_and!.
  - subst out. destruct aggregate_cases as [[_ ->]|[_ ->]]; simpl;
      by rewrite ?length_app, !length_fmap.
  - intros Hle. subst out. destruct aggregate_cases as [[_ ->]|[Hlt _]]; simpl.
    + by rewrite !length_fmap.
    + lia.
  - intros Hlt. subst out. destruct aggregate_cases as [[Hle _]|[_ ->]]; simpl.
    + lia.
    + rewrite length_app, !length_fmap. simpl. lia.
  - intros Hge. specialize (Hall Hge).
    assert (rest_sum = 0) as Hzero.
    { unfold rest_sum, remainder. fold ordered_rows top_rows. rewrite Hall.
      by rewrite Z.sub_diag. }
    subst out. destruct aggregate_cases as [[_ ->]|[Hlt _]]; simpl.
    + rewrite Hall. split; [done|]. rewrite !length_fmap. apply (ordered_length Hperm).
    + lia.
  - apply aggregate_empty.
Qed.

(** C8: the values of the top rows never increase, nor do the sizes made of
    them, and the synthetic "Other" size, when there is one, comes after
    all of them. *)
Theorem aggregate_sizes_descending :
  argsort_desc_spec keys (argsort_desc keys) ->
  let out := _aggregate_top_share argsort_desc df value_col label_col top_n other_label in
  descending (snd <$> top_rows)
  ∧ descending_sizes (astype_float <$> (snd <$> top_rows))
  ∧ (out = (fst <$> top_rows, astype_float <$> (snd <$> top_rows))
     ∨ out = ((fst <$> top_rows) ++ [other_label],
              (astype_float <$> (snd <$> top_rows)) ++ [astype_float rest_sum])).
Proof.
  intros Hspec out. split; [by apply top_descending|].
  split; [by apply descending_sizes_fmap, top_descending|].
  subst out. destruct aggregate_cases as [[_ ->]|[_ ->]]; auto.
Qed.

(** No row that is cut off has a larger value than a row that is kept. *)
Lemma cut_off_not_larger (rest : list (string * Z)) (kept cut_off : string * Z) :
  argsort_desc_spec keys (argsort_desc keys) ->
  ordered_rows = top_rows ++ rest ->
  kept ∈ top_rows -> cut_off ∈ rest -> cut_off.2 <= kept.2.
Proof.
  intros [Hperm Hsorted] Hrest Hkept Hcut.
  rewrite <- ordered_values, Hrest, fmap_app in Hsorted.
  apply (StronglySorted_app_1_elem_of _ _ _ kept.2 cut_off.2) in Hsorted; [done| |].
  + by apply list_elem_of_fmap_2.
  + by apply list_elem_of_fmap_2.
Qed.
End AggregatorProperties.

(** ** The two argsorts meet the library's promise *)

Section Argsort.
Local Open Scope Z_scope.
Variable behind : Z -> Z -> bool.
Hypothesis behind_le : ∀ x y, behind x y = true -> x <= y.
Hypothesis before_ge : ∀ x y, behind x y = false -> y <= x.
Variable keys : list Z.

Local Abbreviation by_key := (fun i j : nat => key_at keys j <= key_at keys i).

Lemma insert_position_Permutation (i : nat) (placed : list nat) :
  insert_position behind keys i placed ≡ₚ i :: placed.
Proof.
  induction placed as [|j rest IH]; simpl; [done|].
  destruct (behind _ _); [|done].
  rewrite IH. apply Permutation_swap.
Qed.

Lemma insert_position_sorted (i : nat) (placed : list nat) :
  StronglySorted by_key placed ->
  StronglySorted by_key (insert_position behind keys i placed).
Proof.
  induction 1 as [|j rest Hrest IH Hj]; simpl.
  - repeat constructor.
  - destruct (behind _ _) eqn:E.
    + constructor; [done|].
      rewrite insert_position_Permutation. constructor; [|done].
      by apply behind_le.
    + apply before_ge in E. constructor; [by constructor|].
      constructor; [done|]. eapply Forall_impl; [exact Hj|].
      simpl. intros k Hk. lia.
Qed.

Lemma argsort_by_fold (todo placed : list nat) :
  let out := foldl (fun placed i => insert_position behind keys i placed) placed todo in
  (out ≡ₚ todo ++ placed)
  ∧ (StronglySorted by_key placed -> StronglySorted by_key out).
Proof.
  revert placed. induction todo as [|i todo IH]; intros placed; simpl; [done|].
  destruct (IH (insert_position behind keys i placed)) as [Hperm Hsorted]. split.
  - rewrite Hperm, insert_position_Permutation. by rewrite Permutation_middle.
  - intros H. by apply Hsorted, insert_position_sorted.
Qed.

Lemma take_rows_in_range (indexer : list nat) :
  Forall (fun i => (i < length keys)%nat) indexer ->
  take_rows indexer keys = key_at keys <$> indexer.
Proof.
  unfold take_rows. induction 1 as [|i indexer Hi _ IH]; csimpl; [done|].
  destruct (lookup_lt_is_Some_2 keys i Hi) as [k Hk]. rewrite Hk. csimpl.
  rewrite IH. f_equal. unfold key_at. symmetry.
  apply nth_lookup_Some with (d := 0) in Hk. done.
Qed.

Lemma argsort_by_spec : argsort_desc_spec keys (argsort_by behind keys).
Proof.
  unfold argsort_by. destruct (argsort_by_fold (seq 0 (length keys)) []) as [Hperm Hsorted].
  rewrite app_nil_r in Hperm. split; [done|].
  rewrite take_rows_in_range.
  - unfold descending. eapply StronglySorted_fmap; [|apply Hsorted; constructor].
    done.
  - rewrite Hperm. apply Forall_forall. intros i Hi.
    apply elem_of_seq in Hi. lia.
Qed.
End Argsort.

Lemma stable_argsort_desc_spec (keys : list Z) :
  argsort_desc_spec keys (stable_argsort_desc keys).
Proof.
  apply argsort_by_spec; intros x y H.
  - by apply Z.leb_le.
  - apply Z.leb_gt in H. lia.
Qed.

Lemma unstable_argsort_desc_spec (keys : list Z) :
  argsort_desc_spec keys (unstable_argsort_desc keys).
Proof.
  apply argsort_by_spec; intros x y H.
  - apply Z.ltb_lt in H. lia.
  - by apply Z.ltb_ge.
Qed.

(** ** Engagement buckets *)

(** The bins of the engagement chart, read off [cut]: closed on the right,
    with the first one closed on the left as well. *)
Lemma cut_engagement (x : Q) :
  (x < 0 -> cut engagement_edges engagement_labels x = None)
  ∧ (0 <= x -> x <= 1 # 2 -> cut engagement_edges engagement_labels x = Some "Quiet (<0.5)"%string)
  ∧ (1 # 2 < x -> x <= 1 -> cut engagement_edges engagement_labels x = Some "Balanced (0.5-1.0)"%string)
  ∧ (1 < x -> cut engagement_edges engagement_labels x = Some "Buzzing (>1.0)"%string).
Proof.
  unfold cut, engagement_edges, engagement_labels, searchsorted_left, edge_below, edge_equal.
  destruct (Qeq_bool 0 x) eqn:E0;
    [apply Qeq_bool_iff in E0 | apply Qeq_bool_neq in E0];
  destruct (Qlt_bool 0 x) eqn:E1;
    [apply Qlt_bool_true in E1 | apply Qlt_bool_false in E1
    |apply Qlt_bool_true in E1 | apply Qlt_bool_false in E1];
  destruct (Qlt_bool (1 # 2) x) eqn:E2;
    try apply Qlt_bool_true in E2; try apply Qlt_bool_false in E2;
  destruct (Qlt_bool 1 x) eqn:E3;
    try apply Qlt_bool_true in E3; try apply Qlt_bool_false in E3;
  simpl; split_and!; intros; try reflexivity; try lra.
  all: exfalso; apply E0; lra.
Qed.

(** The ratio of a row, as a number. *)
Local Abbreviation ratio_of r := (inject_Z (Comments r) / inject_Z (Votes r)).

Lemma EngagementRatio_defined (row : Story) :
  Votes row ≠ 0%Z -> EngagementRatio row = Some (ratio_of row).
Proof.
  intros H. unfold EngagementRatio. by destruct (Z.eqb_spec (Votes row) 0).
Qed.

Lemma EngagementRatio_undefined (row : Story) :
  Votes row = 0%Z -> EngagementRatio row = None.
Proof. intros H. unfold EngagementRatio. by rewrite H. Qed.

Lemma ratio_nonneg (row : Story) :
  (0 < Votes row)%Z -> (0 <= Comments row)%Z -> 0 <= ratio_of row.
Proof.
  intros Hv Hc. apply Qle_shift_div_l.
  - change 0 with (inject_Z 0). by rewrite <- Zlt_Qlt.
  - rewrite Qmult_0_l. change 0 with (inject_Z 0). by rewrite <- Zle_Qle.
Qed.

Lemma value_counts_total (series : list (option string)) :
  Forall one_label series ->
  sumQ ((fun b : string * nat => inject_Z (Z.of_nat b.2))
          <$> value_counts engagement_labels series)
  == inject_Z (Z.of_nat (length series)).
Proof.
  intros H. unfold value_counts, engagement_labels, sumQ. simpl.
  induction H as [|v series Hv _ IH].
  - reflexivity.
  - rewrite !filter_cons.
    destruct Hv as [-> | [-> | ->] ];
      repeat case_decide; try congruence; simpl length;
      rewrite ?Nat2Z.inj_succ, <- ?Z.add_1_r, ?inject_Z_plus in *; simpl in *; lra.
Qed.

Lemma cut_nonneg_one_label (x : Q) :
  0 <= x -> one_label (cut engagement_edges engagement_labels x).
Proof.
  intros Hx. destruct (cut_engagement x) as (_ & Hq & Hb & Hz). unfold one_label.
  destruct (Qlt_le_dec (1 # 2) x); [destruct (Qlt_le_dec 1 x)|]; auto.
Qed.

(** C1 (as amended): a row with positive votes and non-negative comments has
    a ratio, the ratio gets exactly one of the three labels, and a ratio
    below 0.5 is "Quiet (<0.5)", a ratio above 0.5 and up to 1.0 inclusive is
    "Balanced (0.5-1.0)", a ratio above 1.0 is "Buzzing (>1.0)". *)
Theorem engagement_bucket_of_ratio (row : Story) :
  (0 < Votes row)%Z -> (0 <= Comments row)%Z ->
  ∃ r label,
    EngagementRatio row = Some r
    ∧ r = inject_Z (Comments row) / inject_Z (Votes row)
    ∧ cut engagement_edges engagement_labels r = Some label
    ∧ label ∈ engagement_labels
    ∧ (r < 1 # 2 -> label = "Quiet (<0.5)"%string)
    ∧ (1 # 2 < r -> r <= 1 -> label = "Balanced (0.5-1.0)"%string)
    ∧ (1 < r -> label = "Buzzing (>1.0)"%string)
    ∧ sumQ ((fun b : string * nat => inject_Z (Z.of_nat b.2))
              <$> value_counts engagement_labels [Some label]) == 1.
Proof.
  intros Hv Hc. pose proof (ratio_nonneg row Hv Hc) as Hr.
  exists (ratio_of row).
  destruct (cut_nonneg_one_label _ Hr) as [E|[E|E]];
    eexists; (split; [apply EngagementRatio_defined; lia|]);
    (split; [reflexivity|]); (split; [exact E|]);
    destruct (cut_engagement (ratio_of row)) as (_ & Hq & Hb & Hz);
    (split; [unfold engagement_labels; set_solver|]).
  all: split_and!; intros; try reflexivity.
  all: try (rewrite Hq in E by lra; congruence).
  all: try (rewrite Hb in E by lra; congruence).
  all: try (rewrite Hz in E by lra; congruence).
Qed.

Lemma engagement_cons (r : Story) (df : list Story) :
  engagement (r :: df)
  = match EngagementRatio r with
    | Some ratio => (r, ratio) :: engagement df
    | None => engagement df
    end.
Proof. unfold engagement. csimpl. by destruct (EngagementRatio r). Qed.

(** Whatever the sign of the votes, the rows with a ratio are the rows whose
    votes are not zero. *)
Lemma engagement_filter_nonzero (df : list Story) :
  engagement df
  = (fun r => (r, ratio_of r)) <$> filter (fun r => Votes r ≠ 0%Z) df.
Proof.
  induction df as [|r df IH]; [done|].
  rewrite engagement_cons, filter_cons, IH. unfold EngagementRatio.
  destruct (Z.eqb_spec (Votes r) 0); by case_decide.
Qed.

(** Over votes that are not negative, these are the rows with positive
    votes. *)
Lemma filter_positive_votes (df : list Story) :
  Forall (fun r => (0 <= Votes r)%Z) df ->
  filter (fun r => Votes r ≠ 0%Z) df = filter (fun r => (0 < Votes r)%Z) df.
Proof.
  induction 1 as [|r df Hr _ IH]; [done|].
  rewrite !filter_cons, IH. repeat case_decide; try done; lia.
Qed.

Lemma engagement_ratio (df : list Story) (r : Story) (ratio : Q) :
  (r, ratio) ∈ engagement df -> r ∈ df ∧ EngagementRatio r = Some ratio.
Proof.
  unfold engagement. rewrite list_elem_of_omap. intros (r' & Hin & Heq).
  destruct (EngagementRatio r') eqn:E; simplify_eq/=. done.
Qed.

Lemma engagement_nil_iff (df : list Story) :
  engagement df = [] <-> Forall (fun r => Votes r = 0%Z) df.
Proof.
  induction df as [|r df IH]; [done|].
  rewrite engagement_cons, Forall_cons. unfold EngagementRatio at 1.
  destruct (Z.eqb_spec (Votes r) 0) as [E|E].
  - rewrite IH. tauto.
  - split; [done|]. tauto.
Qed.

(** The three counts of the chart add up to the number of ratios that are
    not negative. *)
Lemma bucket_counts_total (ratios : list Q) :
  let series := cut engagement_edges engagement_labels <$> ratios in
  let count lab := length (filter (fun v => v = Some lab) series) in
  (count "Quiet (<0.5)"%string + count "Balanced (0.5-1.0)"%string
   + count "Buzzing (>1.0)"%string
   = length (filter (fun x => Qle_bool 0 x = true) ratios))%nat.
Proof.
  intros series count. subst series count. simpl.
  induction ratios as [|x ratios IH]; [done|].
  rewrite fmap_cons, !filter_cons.
  destruct (Qle_bool 0 x) eqn:E.
  - apply Qle_bool_iff in E.
    destruct (cut_nonneg_one_label x E) as [H | [H | H] ]; rewrite H;
      repeat case_decide; try congruence; simpl; lia.
  - assert (x < 0) as Hneg.
    { apply Qnot_le_lt. intros H. apply Qle_bool_iff in H. congruence. }
    destruct (cut_engagement x) as (Hnone & _). rewrite (Hnone Hneg).
    repeat case_decide; congruence.
Qed.

(** The chart of a table in which some row has a ratio: the three labels
    with three counts, which add up to the number of rows whose ratio is not
    negative. *)
Lemma engagement_chart_counts (df : list Story) :
  engagement df ≠ [] ->
  ∃ quiet balanced buzzing : nat,
    engagement_chart df
    = Pie ["Quiet (<0.5)"; "Balanced (0.5-1.0)"; "Buzzing (>1.0)"]%string
          [inject_Z (Z.of_nat quiet); inject_Z (Z.of_nat balanced);
           inject_Z (Z.of_nat buzzing)]
    ∧ (quiet + balanced + buzzing
       = length (filter (fun row : Story * Q => Qle_bool 0 row.2 = true)
                   (engagement df)))%nat.
Proof.
  intros Hne. unfold engagement_chart.
  destruct (engagement df) as [|row rated] eqn:E; [done|].
  rewrite <- E. clear row rated E Hne.
  pose proof (bucket_counts_total (snd <$> engagement df)) as Hcount. simpl in Hcount.
  rewrite <- list_fmap_compose in Hcount.
  eexists _, _, _. split; [reflexivity|].
  etransitivity; [exact Hcount|].
  generalize (engagement df). clear. intros l.
  induction l as [|[r ratio] l IH]; [done|].
  rewrite fmap_cons, !filter_cons. simpl. case_decide; simpl; by rewrite IH.
Qed.

Lemma filter_Forall {A} (P : A -> Prop) `{!∀ x, Decision (P x)} (l : list A) :
  Forall P l -> filter P l = l.
Proof.
  induction 1 as [|x l Hx _ IH]; [done|]. rewrite filter_cons, IH. by case_decide.
Qed.

(** Over counts that are not negative no ratio is negative. *)
Lemma engagement_ratios_nonneg (df : list Story) :
  Forall (fun r => (0 <= Votes r)%Z ∧ (0 <= Comments r)%Z) df ->
  Forall (fun row : Story * Q => Qle_bool 0 row.2 = true) (engagement df).
Proof.
  intros Hpos. apply Forall_forall. intros [r ratio] Hin.
  apply engagement_ratio in Hin as [Hin Hratio].
  rewrite Forall_forall in Hpos. destruct (Hpos r Hin) as [Hv Hc].
  unfold EngagementRatio in Hratio.
  destruct (Z.eqb_spec (Votes r) 0) as [E|E]; [done|]. simplify_eq. simpl.
  apply Qle_bool_iff, ratio_nonneg; [lia|done].
Qed.

(** C7 (as amended): the rows that get a ratio are the rows whose votes are
    not zero, each with Comments / Votes, whatever the sign of the votes; a
    row with zero votes has no ratio and is not among them; the chart is
    the "no data" text exactly when every row has zero votes; otherwise it
    shows three counts, which count rows with a ratio only, so that a row
    without votes is in no bucket; over counts that are not negative these
    are the rows with positive votes, all of them. *)
Theorem engagement_excludes_zero_votes (df : list Story) :
  engagement df
  = (fun r => (r, inject_Z (Comments r) / inject_Z (Votes r)))
      <$> filter (fun r => Votes r ≠ 0%Z) df
  ∧ (∀ r, r ∈ df -> Votes r = 0%Z ->
       EngagementRatio r = None ∧ r ∉ fst <$> engagement df)
  ∧ (∀ r, r ∈ df -> Votes r ≠ 0%Z ->
       EngagementRatio r = Some (inject_Z (Comments r) / inject_Z (Votes r))
       ∧ r ∈ fst <$> engagement df)
  ∧ (engagement_chart df = TextOnly "No engagement data"
     <-> Forall (fun r => Votes r = 0%Z) df)
  ∧ (Exists (fun r => Votes r ≠ 0%Z) df ->
     ∃ quiet balanced buzzing : nat,
       engagement_chart df
       = Pie engagement_labels
             [inject_Z (Z.of_nat quiet); inject_Z (Z.of_nat balanced);
              inject_Z (Z.of_nat buzzing)]
       ∧ (quiet + balanced + buzzing
          <= length (filter (fun r => Votes r ≠ 0%Z) df))%nat
       ∧ (Forall (fun r => (0 <= Votes r)%Z ∧ (0 <= Comments r)%Z) df ->
          (quiet + balanced + buzzing)%nat
          = length (filter (fun r => (0 < Votes r)%Z) df))).
Proof.
  split_and!.
  - apply engagement_filter_nonzero.
  - intros r _ Hzero. split; [by apply EngagementRatio_undefined|].
    intros Hin. apply list_elem_of_fmap in Hin as ([r' ratio] & -> & Hin).
    apply engagement_ratio in Hin as [_ Hsome]. simpl in Hsome.
    rewrite EngagementRatio_undefined in Hsome; done.
  - intros r Hin Hvotes. split; [by apply EngagementRatio_defined|].
    rewrite engagement_filter_nonzero, <- list_fmap_compose.
    apply (list_elem_of_fmap_2' _ _ r); [|done].
    by apply list_elem_of_filter.
  - rewrite <- engagement_nil_iff. unfold engagement_chart.
    destruct (engagement df); [done|]. split; discriminate.
  - intros Hsome.
    assert (engagement df ≠ []) as Hne.
    { rewrite engagement_nil_iff. intros Hall.
      apply Exists_exists in Hsome as (r & Hin & Hvotes).
      rewrite Forall_forall in Hall. by specialize (Hall r Hin). }
    destruct (engagement_chart_counts df Hne) as (quiet & balanced & buzzing & Hchart & Hcount).
    exists quiet, balanced, buzzing. split; [exact Hchart|].
    rewrite Hcount, engagement_filter_nonzero. split.
    + etransitivity; [apply length_filter|]. by rewrite length_fmap.
    + intros Hpos. rewrite <- (filter_positive_votes df).
      2:{ eapply Forall_impl; [exact Hpos|]. by intros r [? _]. }
      rewrite <- engagement_filter_nonzero.
      rewrite (filter_Forall _ _ (engagement_ratios_nonneg df Hpos)).
      by rewrite engagement_filter_nonzero, length_fmap.
Qed.
(** ** The network location of a URL *)

Lemma lstrip_alpha (c : ascii) (s : string) :
  ascii_alpha c = true -> lstrip (String c s) = String c s.
Proof.
  intros H. simpl. unfold c0_control_or_space, ascii_alpha in *.
  destruct (Nat.leb_spec (code c) 32); [|done].
  apply orb_true_iff in H as [H|H]; apply andb_true_iff in H as [H1 H2];
    apply Nat.leb_le in H1, H2; lia.
Qed.

Lemma contains_lstrip (c : ascii) (s : string) :
  contains c s = false -> contains c (lstrip s) = false.
Proof.
  induction s as [|d s IH]; [done|]. simpl.
  destruct (c0_control_or_space d); [|done].
  intros H. apply orb_false_iff in H as [_ H]. auto.
Qed.

Lemma contains_remove_unsafe (c : ascii) (s : string) :
  contains c s = false -> contains c (remove_unsafe s) = false.
Proof.
  induction s as [|d s IH]; [done|]. simpl. intros H.
  apply orb_false_iff in H as [H1 H2].
  destruct (unsafe_url_byte d); simpl; [auto|]. rewrite H1. auto.
Qed.

Lemma contains_split_colon (c : ascii) (s before after : string) :
  contains c s = false -> split_colon s = Some (before, after) ->
  contains c after = false.
Proof.
  revert before. induction s as [|d s IH]; intros before H Hs; [done|].
  simpl in *. apply orb_false_iff in H as [H1 H2].
  destruct (code d =? 58)%nat; [by simplify_eq|].
  destruct (split_colon s) as [[b a]|]; [|done]. simplify_eq. eauto.
Qed.

Lemma contains_strip_scheme (c : ascii) (s : string) :
  contains c s = false -> contains c (strip_scheme s) = false.
Proof.
  intros H. unfold strip_scheme.
  destruct (split_colon s) as [[before after]|] eqn:E; [|done].
  destruct before as [|c0 before]; [done|].
  destruct (_ && _); [|done]. by eapply contains_split_colon.
Qed.

Lemma after_slashes_no_slash (s : string) :
  contains slash s = false -> after_slashes s = None.
Proof.
  destruct s as [|c1 [|c2 s]]; [done..|]. simpl. intros H.
  apply orb_false_iff in H as [H _].
  destruct (code c1 =? 47)%nat eqn:E; [|done].
  apply Nat.eqb_eq in E. unfold code in E.
  assert (c1 = slash) as ->.
  { rewrite <- (ascii_nat_embedding c1), E. done. }
  done.
Qed.



Lemma uint_no_slash (d : Decimal.uint) :
  contains slash (NilEmpty.string_of_uint d) = false.
Proof. induction d; simpl; auto. Qed.

Lemma py_str_no_slash (c : cell) : not_a_string c -> contains slash (py_str c) = false.
Proof.
  destruct c as [s| |z]; [done|done|]. intros _. simpl.
  unfold NilZero.string_of_int.
  assert (∀ d, contains slash (NilZero.string_of_uint d) = false) as Huint.
  { intros d. unfold NilZero.string_of_uint.
    destruct d; [reflexivity | apply uint_no_slash ..]. }
  destruct (Z.to_int z) as [d|d]; simpl; apply Huint.
Qed.

(** Facts about single characters, checked on all of them. *)
Ltac all_ascii c :=
  destruct c as [[] [] [] [] [] [] [] []]; vm_compute; (reflexivity || discriminate || tauto).

Lemma scheme_char_safe (c : ascii) :
  scheme_char c = true -> unsafe_url_byte c = false ∧ (code c =? 58)%nat = false.
Proof. all_ascii c. Qed.

Lemma host_char_spec (c : ascii) :
  host_char c = true ->
  unsafe_url_byte c = false ∧ netloc_delim c = false
  ∧ Ascii.eqb open_bracket c = false ∧ Ascii.eqb close_bracket c = false
  ∧ (code c <? 128)%nat = true.
Proof. all_ascii c. Qed.

Lemma delim_safe (c : ascii) : netloc_delim c = true -> unsafe_url_byte c = false.
Proof. all_ascii c. Qed.

Lemma remove_unsafe_app (a b : string) :
  remove_unsafe (a +:+ b) = remove_unsafe a +:+ remove_unsafe b.
Proof.
  induction a as [|c a IH]; [done|]. simpl.
  destruct (unsafe_url_byte c); simpl; by rewrite IH.
Qed.

Lemma remove_unsafe_scheme (s : string) :
  all_chars scheme_char s = true -> remove_unsafe s = s.
Proof.
  induction s as [|c s IH]; [done|]. simpl. intros H.
  apply andb_true_iff in H as [Hc Hs]. apply scheme_char_safe in Hc as [-> _].
  by rewrite IH.
Qed.

Lemma remove_unsafe_host (s : string) :
  plain_host s = true -> remove_unsafe s = s.
Proof.
  unfold plain_host. induction s as [|c s IH]; [done|]. simpl. intros H.
  apply andb_true_iff in H as [Hc Hs]. apply host_char_spec in Hc as (-> & _).
  by rewrite IH.
Qed.

Lemma remove_unsafe_delimited (s : string) :
  delimited s = true -> delimited (remove_unsafe s) = true.
Proof.
  destruct s as [|c s]; [done|]. simpl. intros H.
  by rewrite (delim_safe c H).
Qed.

Lemma split_colon_scheme (scheme after : string) :
  all_chars scheme_char scheme = true ->
  split_colon (scheme +:+ String ":" after) = Some (scheme, after).
Proof.
  induction scheme as [|c s IH]; [done|]. simpl. intros H.
  apply andb_true_iff in H as [Hc Hs]. apply scheme_char_safe in Hc as [_ ->].
  by rewrite IH.
Qed.

Lemma up_to_delim_host (host rest : string) :
  plain_host host = true -> delimited rest = true ->
  up_to_delim (host +:+ rest) = host.
Proof.
  unfold plain_host. intros Hhost Hrest. induction host as [|c s IH]; simpl in *.
  - destruct rest as [|d rest]; [done|]. simpl in *. by rewrite Hrest.
  - apply andb_true_iff in Hhost as [Hc Hs]. apply host_char_spec in Hc as (_ & -> & _).
    by rewrite IH.
Qed.

Lemma plain_host_brackets (host : string) :
  plain_host host = true ->
  contains open_bracket host = false ∧ contains close_bracket host = false
  ∧ is_ascii host = true.
Proof.
  unfold plain_host, is_ascii. induction host as [|c s IH]; [done|].
  cbn [all_chars contains]. intros H.
  apply andb_true_iff in H as [Hc Hs]. apply host_char_spec in Hc as (_ & _ & -> & -> & ->).
  cbn [orb andb]. auto.
Qed.

Section UrlparseProperties.
Variable check_bracketed_netloc : string -> option string.
Variable check_nfkc : string -> option string.
Local Abbreviation netloc_of := (urlparse_netloc check_bracketed_netloc check_nfkc).
Local Abbreviation label_of := (domain_label check_bracketed_netloc check_nfkc).

Lemma urlparse_scheme_host (scheme host rest : string) :
  valid_scheme scheme = true -> plain_host host = true -> delimited rest = true ->
  netloc_of (scheme +:+ "://" +:+ host +:+ rest) = Ok host.
Proof.
  intros Hscheme Hhost Hrest.
  unfold urlparse_netloc.
  destruct scheme as [|c0 scheme]; [done|].
  apply andb_true_iff in Hscheme as [Halpha Hchars].
  change (String c0 scheme +:+ "://" +:+ host +:+ rest)
    with (String c0 (scheme +:+ "://" +:+ host +:+ rest)).
  rewrite lstrip_alpha by done.
  change (String c0 (scheme +:+ "://" +:+ host +:+ rest))
    with (String c0 scheme +:+ String ":" ("//" +:+ host +:+ rest)).
  rewrite remove_unsafe_app, remove_unsafe_scheme by done.
  change (remove_unsafe (String ":" ("//" +:+ host +:+ rest)))
    with (String ":" (String slash (String slash (remove_unsafe (host +:+ rest))))).
  rewrite remove_unsafe_app, remove_unsafe_host by done.
  unfold strip_scheme. rewrite split_colon_scheme by done.
  rewrite Halpha, Hchars. simpl.
  unfold split_netloc. simpl.
  rewrite up_to_delim_host by auto using remove_unsafe_delimited.
  destruct (plain_host_brackets host Hhost) as (-> & -> & Hascii). simpl.
  unfold checknetloc. rewrite Hascii. by destruct host.
Qed.

Lemma urlparse_no_slash (s : string) :
  contains slash s = false -> netloc_of s = Ok EmptyString.
Proof.
  intros H. unfold urlparse_netloc, split_netloc.
  rewrite after_slashes_no_slash; [done|].
  by apply contains_strip_scheme, contains_remove_unsafe, contains_lstrip.
Qed.

Lemma domain_label_of_netloc (url : cell) (netloc : string) :
  netloc_of (py_str url) = Ok netloc -> label_of url = Ok (or_unknown netloc).
Proof. unfold domain_label. by intros ->. Qed.

Lemma domain_label_raises (url : cell) (e : exn) :
  netloc_of (py_str url) = Raise e <-> label_of url = Raise e.
Proof.
  unfold domain_label. destruct (netloc_of (py_str url)); simpl; split; congruence.
Qed.

(** C6 (as amended): the label of a row is the network location that
    [urlparse] finds in the string form of its URL, and "Unknown" when that
    is empty; for a URL [scheme://host...] it is the host (with user and
    port, when given); a string without a slash has no network location,
    so its label is "Unknown"; when [urlparse] raises, the extractor
    raises the same exception and gives no label. *)
Theorem domain_label_netloc (url : cell) :
  (∀ netloc, netloc_of (py_str url) = Ok netloc ->
             label_of url = Ok (or_unknown netloc))
  ∧ (∀ e, netloc_of (py_str url) = Raise e -> label_of url = Raise e)
  ∧ (∀ scheme host rest,
       valid_scheme scheme = true -> plain_host host = true ->
       delimited rest = true ->
       url = Text (scheme +:+ "://" +:+ host +:+ rest) ->
       label_of url = Ok (or_unknown host))
  ∧ (contains slash (py_str url) = false -> label_of url = Ok "Unknown"%string)
  ∧ label_of (Text "https://news.ycombinator.com/item?id=1")
    = Ok "news.ycombinator.com"%string.
Proof.
  split_and!.
  - apply domain_label_of_netloc.
  - intros e. apply domain_label_raises.
  - intros scheme host rest Hscheme Hhost Hrest ->.
    apply domain_label_of_netloc. simpl. by apply urlparse_scheme_host.
  - intros H. apply (domain_label_of_netloc url EmptyString).
    by apply urlparse_no_slash.
  - apply (domain_label_of_netloc _ "news.ycombinator.com").
    apply (urlparse_scheme_host "https" "news.ycombinator.com" "/item?id=1"); reflexivity.
Qed.
End UrlparseProperties.


(** ** Grouping by domain *)

Ltac int64_arith :=
  rewrite ?wrap_int64_add_l, ?wrap_int64_add_r, ?wrap_int64_idemp; try done;
  try (f_equal; lia).

Section GroupTotals.
Local Open Scope Z_scope.

Lemma group_total_cons (key k : string) (v : Z) (groups : list (string * Z)) :
  group_total key ((k, v) :: groups)
  = wrap_int64 ((if decide (k = key) then v else 0) + group_total key groups).
Proof.
  unfold group_total. rewrite filter_cons. simpl.
  case_decide; [by rewrite fmap_cons, Series_sum_cons|].
  unfold Series_sum. by rewrite Z.add_0_l, wrap_int64_idemp.
Qed.

Lemma group_total_add (key k : string) (v : Z) (groups : list (string * Z)) :
  group_total key (add_to_group k v groups)
  = wrap_int64 ((if decide (k = key) then v else 0) + group_total key groups).
Proof.
  induction groups as [|[k' total] groups IH].
  - simpl. by rewrite group_total_cons.
  - simpl. destruct (String.compare k k') eqn:E.
    + apply String.compare_eq_iff in E as ->.
      rewrite !group_total_cons. case_decide; int64_arith.
    + by rewrite !group_total_cons.
    + rewrite !group_total_cons, IH. int64_arith.
Qed.

Lemma group_total_foldl {R} (key : R -> string) (value : R -> Z) (k : string)
    (df : list R) (groups : list (string * Z)) :
  group_total k (foldl (fun groups r => add_to_group (key r) (value r) groups) groups df)
  = wrap_int64 (group_total k groups + sumZ (value <$> filter (fun r => key r = k) df)).
Proof.
  revert groups. induction df as [|r df IH]; intros groups.
  - simpl. unfold group_total, Series_sum. by rewrite Z.add_0_r, wrap_int64_idemp.
  - simpl. rewrite IH, group_total_add, filter_cons.
    case_decide; rewrite ?fmap_cons, ?sumZ_cons; int64_arith.
Qed.

Lemma group_total_groupby {R} (key : R -> string) (value : R -> Z) (k : string)
    (df : list R) :
  group_total k (groupby_sum key value df)
  = Series_sum (value <$> filter (fun r => key r = k) df).
Proof. unfold groupby_sum. by rewrite group_total_foldl. Qed.
End GroupTotals.

Lemma apply_series_Ok {A B} (f : A -> result B) (series : list A) (out : list B) :
  apply_series f series = Ok out -> Forall2 (fun x y => f x = Ok y) series out.
Proof.
  revert out. induction series as [|x series IH]; intros out; simpl.
  - intros [= <-]. constructor.
  - destruct (f x) as [y|e] eqn:E; simpl; [|done].
    destruct (apply_series f series) as [ys|e]; simpl; [|done].
    intros [= <-]. constructor; auto.
Qed.

Lemma apply_series_Raise {A B} (f : A -> result B) (series : list A) (e : exn) :
  apply_series f series = Raise e -> ∃ x, x ∈ series ∧ f x = Raise e.
Proof.
  induction series as [|x series IH]; simpl; [done|].
  destruct (f x) as [y|e'] eqn:E; simpl.
  - destruct (apply_series f series) as [ys|e'']; simpl; [done|].
    intros [= ->]. destruct IH as (x' & Hin & Hx'); [done|].
    exists x'. split; [by right|done].
  - intros [= ->]. exists x. split; [by left|done].
Qed.

Lemma apply_series_total {A B} (f : A -> result B) (series : list A) :
  (∀ x, x ∈ series -> ∃ y, f x = Ok y) -> ∃ out, apply_series f series = Ok out.
Proof.
  induction series as [|x series IH]; intros H; simpl; [by eexists|].
  destruct (H x) as [y ->]; [by left|]. simpl.
  destruct IH as [ys ->]; [intros; apply H; by right|]. simpl. by eexists.
Qed.

(** The grouped table holds, for every domain label, the votes of the rows
    with that label added up as an int64 column is; in the sample table the
    votes of x.com add up to 110. *)
Theorem groupby_sum_totals {R} (key : R -> string) (value : R -> Z) (df : list R)
    (k : string) :
  group_total k (groupby_sum key value df)
  = Series_sum (value <$> filter (fun r => key r = k) df)
  ∧ groupby_sum snd (fun r : Story * string => Votes r.1)
      (zip sample_table ["x.com"; "y.com"; "x.com"]%string)
    = [("x.com", 110%Z); ("y.com", 50%Z)]%string.
Proof. split; [apply group_total_groupby | reflexivity]. Qed.

Section DomainProperties.
Variable check_bracketed_netloc : string -> option string.
Variable check_nfkc : string -> option string.
Local Abbreviation netloc_of := (urlparse_netloc check_bracketed_netloc check_nfkc).
Local Abbreviation label_of := (domain_label check_bracketed_netloc check_nfkc).

Lemma not_a_string_unknown (url : cell) :
  not_a_string url -> label_of url = Ok "Unknown"%string.
Proof.
  intros H. apply (domain_label_of_netloc _ _ url EmptyString).
  by apply urlparse_no_slash, py_str_no_slash.
Qed.

(** C10: a URL cell that is missing or not a string is parsed in its string
    form; that form has no network location, so the row is labelled
    "Unknown" and the extraction does not raise on it: when the extraction
    of a table raises, a string URL is the cause.  In the grouped table the
    row is among the rows labelled "Unknown", whose votes make up the total
    of that group. *)
Theorem missing_url_is_unknown (url : cell) :
  not_a_string url ->
  label_of url = label_of (Text (py_str url))
  ∧ netloc_of (py_str url) = Ok EmptyString
  ∧ label_of url = Ok "Unknown"%string
  ∧ ∀ (df : list Story) (row : Story),
      row ∈ df -> URL row = url ->
      (∀ e, apply_series label_of (URL <$> df) = Raise e ->
            ∃ other s, other ∈ df ∧ URL other = Text s ∧ label_of (Text s) = Raise e)
      ∧ (∀ domains,
           apply_series label_of (URL <$> df) = Ok domains ->
           (row, "Unknown"%string) ∈ zip df domains
           ∧ group_total "Unknown"
               (groupby_sum snd (fun r : Story * string => Votes r.1) (zip df domains))
             = Series_sum ((fun r : Story * string => Votes r.1)
                             <$> filter (fun r : Story * string => r.2 = "Unknown"%string)
                                   (zip df domains))).
Proof.
  intros Hurl. split_and!.
  - reflexivity.
  - by apply urlparse_no_slash, py_str_no_slash.
  - by apply not_a_string_unknown.
  - intros df row Hrow HURL. split.
    + intros e Hraise. apply apply_series_Raise in Hraise as (x & Hin & Hx).
      apply list_elem_of_fmap in Hin as (other & -> & Hother).
      destruct (URL other) as [s| |z] eqn:E.
      * by exists other, s.
      * rewrite not_a_string_unknown in Hx; done.
      * rewrite not_a_string_unknown in Hx; done.
    + intros domains Hok. split; [|apply group_total_groupby].
      apply apply_series_Ok, Forall2_fmap_l in Hok.
      apply list_elem_of_lookup in Hrow as [i Hi].
      destruct (Forall2_lookup_l _ _ _ _ _ Hok Hi) as (label & Hlabel & Heq).
      simpl in Heq. rewrite HURL, not_a_string_unknown in Heq by done. simplify_eq.
      apply (list_elem_of_lookup_2 _ i).
      apply lookup_zip_with_Some. eauto.
Qed.
End DomainProperties.

(** ** The order of the groups *)

Lemma ascii_compare_lt_trans (a b c : ascii) :
  Ascii.compare a b = Lt -> Ascii.compare b c = Lt -> Ascii.compare a c = Lt.
Proof.
  unfold Ascii.compare. rewrite !N.compare_lt_iff. apply N.lt_trans.
Qed.

Lemma string_compare_lt_trans (s1 s2 s3 : string) :
  String.compare s1 s2 = Lt -> String.compare s2 s3 = Lt -> String.compare s1 s3 = Lt.
Proof.
  revert s2 s3. induction s1 as [|c1 s1 IH]; intros [|c2 s2] [|c3 s3]; simpl;
    try done.
  destruct (Ascii.compare c1 c2) eqn:E12; [|intros _|done].
  - apply Ascii.compare_eq_iff in E12 as ->.
    destruct (Ascii.compare c2 c3); [apply IH|done|done].
  - destruct (Ascii.compare c2 c3) eqn:E23; [|intros _|done].
    + apply Ascii.compare_eq_iff in E23 as <-. by rewrite E12.
    + by rewrite (ascii_compare_lt_trans c1 c2 c3).
Qed.

Lemma string_compare_refl (s : string) : String.compare s s = Eq.
Proof.
  pose proof (String.compare_antisym s s) as H.
  destruct (String.compare s s); simpl in H; congruence.
Qed.

Lemma string_compare_gt (s1 s2 : string) :
  String.compare s1 s2 = Gt -> String.compare s2 s1 = Lt.
Proof.
  rewrite (String.compare_antisym s2 s1). by intros ->.
Qed.

Local Abbreviation key_before := (fun a b : string => String.compare a b = Lt).

Section GroupRows.
Local Open Scope Z_scope.

Lemma add_to_group_keys (key : string) (value : Z) (groups : list (string * Z))
    (k : string) :
  k ∈ fst <$> add_to_group key value groups <-> k = key ∨ k ∈ fst <$> groups.
Proof.
  induction groups as [|[k' total] groups IH]; simpl.
  - rewrite list_elem_of_singleton. split; [by left|]. intros [H|H]; [done|].
    by inversion H.
  - destruct (String.compare key k') eqn:E; csimpl.
    + apply String.compare_eq_iff in E as ->. rewrite elem_of_cons. tauto.
    + rewrite !elem_of_cons. tauto.
    + rewrite !elem_of_cons, IH. tauto.
Qed.

Lemma add_to_group_sorted (key : string) (value : Z) (groups : list (string * Z)) :
  StronglySorted key_before (fst <$> groups) ->
  StronglySorted key_before (fst <$> add_to_group key value groups).
Proof.
  induction groups as [|[k' total] groups IH]; simpl; intros H.
  - repeat constructor.
  - apply StronglySorted_inv in H as [Hrest Hk'].
    destruct (String.compare key k') eqn:E; csimpl.
    + by constructor.
    + constructor; [by constructor|]. constructor; [done|].
      eapply Forall_impl; [exact Hk'|]. simpl. intros k.
      by apply string_compare_lt_trans.
    + constructor; [by apply IH|]. apply Forall_forall. intros k Hk.
      apply add_to_group_keys in Hk as [->|Hk].
      * by apply string_compare_gt.
      * rewrite Forall_forall in Hk'. by apply Hk'.
Qed.

Lemma add_to_group_sum (key : string) (value : Z) (groups : list (string * Z)) :
  Series_sum (snd <$> add_to_group key value groups)
  = wrap_int64 (value + Series_sum (snd <$> groups)).
Proof.
  induction groups as [|[k' total] groups IH]; simpl.
  - by rewrite Series_sum_cons.
  - destruct (String.compare key k'); csimpl; rewrite !Series_sum_cons, ?IH;
      int64_arith.
Qed.

(** While the totals stay within the int64 range, the additions are exact
    and the totals are not negative. *)
Lemma add_to_group_exact (key : string) (value : Z) (groups : list (string * Z)) :
  0 <= value -> Forall (fun g => 0 <= g.2) groups ->
  sumZ (snd <$> groups) + value < 2 ^ 63 ->
  Forall (fun g => 0 <= g.2) (add_to_group key value groups)
  ∧ sumZ (snd <$> add_to_group key value groups) = sumZ (snd <$> groups) + value.
Proof.
  intros Hv. induction 1 as [|[k' total] groups Hg Hrest IH]; cbn [add_to_group].
  - intros _. split; [by repeat constructor|]. unfold sumZ. simpl. lia.
  - rewrite fmap_cons, sumZ_cons. cbn [snd] in *. intros Hfit.
    pose proof (sumZ_nonneg (snd <$> groups)) as Hsum.
    specialize (Hsum ltac:(by apply Forall_fmap)).
    pose proof (Z.pow_pos_nonneg 2 63) as Hrange.
    destruct (String.compare key k'); rewrite ?fmap_cons, ?sumZ_cons; cbn [snd].
    + rewrite wrap_int64_id by lia. split; [constructor; [cbn [snd]; lia|done]|].
      lia.
    + split; [by repeat constructor|]. rewrite ?fmap_cons, ?sumZ_cons. cbn [snd]. lia.
    + destruct IH as [IHpos IHsum]; [lia|]. split; [by constructor|].
      rewrite IHsum. lia.
Qed.
End GroupRows.

Section Groups.
Local Open Scope Z_scope.
Context {R : Type}.
Variables (key : R -> string) (value : R -> Z).

Lemma groupby_fold (df : list R) (groups : list (string * Z)) :
  let out := foldl (fun groups r => add_to_group (key r) (value r) groups) groups df in
  (StronglySorted key_before (fst <$> groups) -> StronglySorted key_before (fst <$> out))
  ∧ (∀ k, k ∈ fst <$> out <-> k ∈ fst <$> groups ∨ ∃ r, r ∈ df ∧ key r = k)
  ∧ Series_sum (snd <$> out)
    = wrap_int64 (Series_sum (snd <$> groups) + sumZ (value <$> df)).
Proof.
  revert groups. induction df as [|r df IH]; intros groups; cbn [foldl].
  - split_and!; [done| |].
    + intros k. split; [by left|]. intros [H|(r & Hr & _)]; [done|]. by inversion Hr.
    + unfold Series_sum. by rewrite Z.add_0_r, wrap_int64_idemp.
  - destruct (IH (add_to_group (key r) (value r) groups)) as (Hs & Hk & Hsum).
    split_and!.
    + intros H. by apply Hs, add_to_group_sorted.
    + intros k. rewrite Hk, add_to_group_keys. split.
      * intros [[->|H]|(r' & Hr' & Hkey)]; [right|by left|right].
        -- exists r. split; [by left|done].
        -- exists r'. split; [by right|done].
      * intros [H|(r' & Hr' & Hkey)]; [left; by right|].
        apply elem_of_cons in Hr' as [->|Hr']; [left; by left|].
        right. by exists r'.
    + rewrite Hsum, add_to_group_sum, fmap_cons, sumZ_cons. int64_arith.
Qed.

Lemma groupby_sum_sum (df : list R) :
  Series_sum (snd <$> groupby_sum key value df) = Series_sum (value <$> df).
Proof.
  destruct (groupby_fold df []) as (_ & _ & H). unfold groupby_sum.
  rewrite H. unfold Series_sum. simpl. int64_arith.
Qed.

Lemma groupby_fold_exact (df : list R) (groups : list (string * Z)) :
  Forall (fun r => 0 <= value r) df ->
  Forall (fun g => 0 <= g.2) groups ->
  sumZ (snd <$> groups) + sumZ (value <$> df) < 2 ^ 63 ->
  let out := foldl (fun groups r => add_to_group (key r) (value r) groups) groups df in
  Forall (fun g => 0 <= g.2) out
  ∧ sumZ (snd <$> out) = sumZ (snd <$> groups) + sumZ (value <$> df).
Proof.
  intros Hdf. revert groups.
  induction Hdf as [|r df Hr Hdf IH]; intros groups Hgroups Hfit; cbn [foldl].
  - split; [done|]. unfold sumZ at 3. simpl. lia.
  - rewrite fmap_cons, sumZ_cons in Hfit |- *.
    pose proof (sumZ_nonneg (value <$> df)) as Hsum.
    specialize (Hsum ltac:(by apply Forall_fmap)).
    destruct (add_to_group_exact (key r) (value r) groups Hr Hgroups) as [Hpos Hadd];
      [lia|].
    destruct (IH (add_to_group (key r) (value r) groups) Hpos) as [IHpos IHsum]; [lia|].
    split; [done|]. rewrite IHsum, Hadd. lia.
Qed.

(** Over values that are not negative and whose total fits an int64, no
    grouped sum wraps around. *)
Lemma groupby_sum_exact (df : list R) :
  Forall (fun r => 0 <= value r) df ->
  sumZ (value <$> df) < 2 ^ 63 ->
  Forall (fun g => 0 <= g.2) (groupby_sum key value df)
  ∧ sumZ (snd <$> groupby_sum key value df) = sumZ (value <$> df).
Proof.
  intros Hdf Hfit. destruct (groupby_fold_exact df [] Hdf) as [Hpos Hsum];
    [constructor|by simpl|]. split; [done|]. exact Hsum.
Qed.

(** The grouped table has one row per key that occurs in the table, the
    keys in strictly ascending order, and its values add up to what the
    value column adds up to. *)
Theorem groupby_sum_keys (df : list R) :
  let groups := groupby_sum key value df in
  StronglySorted key_before (fst <$> groups)
  ∧ NoDup (fst <$> groups)
  ∧ (∀ k, k ∈ fst <$> groups <-> ∃ r, r ∈ df ∧ key r = k)
  ∧ Series_sum (snd <$> groups) = Series_sum (value <$> df).
Proof.
  intros groups. destruct (groupby_fold df []) as (Hs & Hk & _).
  assert (StronglySorted key_before (fst <$> groups)) as Hsorted.
  { apply Hs. constructor. }
  split_and!; [done| | |apply groupby_sum_sum].
  - clear -Hsorted. induction Hsorted as [|k keys _ IH Hk]; constructor; [|done].
    intros Hin. rewrite Forall_forall in Hk. specialize (Hk k Hin).
    by rewrite string_compare_refl in Hk.
  - intros k. unfold groups, groupby_sum. rewrite Hk. split; [|by right].
    intros [H|H]; [|done]. by inversion H.
Qed.
End Groups.

(** ** The checks of the renderer *)

Lemma existsb_negative (sizes : list Q) :
  existsb (fun x => Qlt_bool x 0) sizes = false <-> Forall (fun x => 0 <= x) sizes.
Proof.
  induction sizes as [|x sizes IH]; simpl.
  - split; [constructor|done].
  - rewrite orb_false_iff, Forall_cons, IH, Qlt_bool_false. done.
Qed.

Lemma _plot_pie_Ok (labels : list string) (sizes : list Q) (c : chart) :
  _plot_pie labels sizes = Ok c <-> c = Pie labels sizes ∧ drawable (Pie labels sizes).
Proof.
  unfold _plot_pie, drawable.
  destruct (existsb _ sizes) eqn:Eneg.
  { split; [done|]. intros (_ & Hpos & _). apply existsb_negative in Hpos. congruence. }
  apply existsb_negative in Eneg. pose proof (sumQ_nonneg sizes Eneg) as Hsum.
  destruct (Qeq_bool (sumQ sizes) 0) eqn:Ezero.
  { apply Qeq_bool_iff in Ezero. split; [done|]. intros (_ & _ & Hlt & _). lra. }
  apply Qeq_bool_neq in Ezero.
  destruct (Nat.eqb_spec (length labels) (length sizes)) as [Hlen|Hlen]; simpl.
  - split; [intros [= <-]|by intros [-> _] ]. split_and!; try done.
    destruct (Qlt_le_dec 0 (sumQ sizes)); [done|]. exfalso. apply Ezero. lra.
  - split; [done|]. by intros (_ & _ & _ & ?).
Qed.

Lemma _plot_pie_Raise (labels : list string) (sizes : list Q) (e : exn) :
  _plot_pie labels sizes = Raise e ->
  (e = NegativeWedge ∧ Exists (fun x => x < 0) sizes)
  ∨ (e = ZeroWedges ∧ Forall (fun x => x == 0) sizes)
  ∨ (e = LabelCount ∧ length labels ≠ length sizes).
Proof.
  unfold _plot_pie.
  destruct (existsb _ sizes) eqn:Eneg.
  { intros [= <-]. left. split; [done|].
    apply existsb_exists in Eneg as (x & Hin & Hx). apply Exists_exists.
    exists x. split; [by apply list_elem_of_In|by apply Qlt_bool_true]. }
  apply existsb_negative in Eneg.
  destruct (Qeq_bool (sumQ sizes) 0) eqn:Ezero.
  { intros [= <-]. right. left. split; [done|].
    apply sumQ_zero; [done|]. by apply Qeq_bool_iff. }
  destruct (Nat.eqb_spec (length labels) (length sizes)) as [Hlen|Hlen]; simpl; [done|].
  intros [= <-]. right. right. done.
Qed.

Lemma draw_Ok (c c' : chart) : draw c = Ok c' <-> c' = c ∧ drawable c.
Proof.
  destruct c as [labels sizes|message]; simpl.
  - apply _plot_pie_Ok.
  - split; [by intros [= <-]|by intros [-> _] ].
Qed.

Lemma draw_Raise (c : chart) (e : exn) :
  draw c = Raise e ->
  ∃ labels sizes,
    c = Pie labels sizes
    ∧ ((e = NegativeWedge ∧ Exists (fun x => x < 0) sizes)
       ∨ (e = ZeroWedges ∧ Forall (fun x => x == 0) sizes)
       ∨ (e = LabelCount ∧ length labels ≠ length sizes)).
Proof.
  destruct c as [labels sizes|message]; simpl; [|done].
  intros H. exists labels, sizes. split; [done|]. by apply _plot_pie_Raise.
Qed.

Lemma pie_of_pair (p : list string * list Q) :
  (let '(labels, sizes) := p in Pie labels sizes) = Pie p.1 p.2.
Proof. by destruct p. Qed.

(** The aggregator returns as many labels as sizes, and a negative size only
    for a row with a negative value. *)
Section AggregatorSizes.
Local Open Scope Z_scope.
Variable argsort_desc : list Z -> list nat.
Context {R : Type}.
Variables (df : list R) (value_col : R -> Z) (label_col : R -> string).
Variables (top_n : Z) (other_label : string).

Local Abbreviation out :=
  (_aggregate_top_share argsort_desc df value_col label_col top_n other_label).
Local Abbreviation ordered_rows := (ordered argsort_desc df value_col label_col).
Local Abbreviation top_rows := (top argsort_desc df value_col label_col top_n).
Local Abbreviation rest_sum := (remainder argsort_desc df value_col label_col top_n).

Lemma aggregate_same_length : length out.1 = length out.2.
Proof.
  destruct (aggregate_cases argsort_desc df value_col label_col top_n other_label)
    as [[_ ->]|[_ ->]]; simpl; by rewrite ?length_app, !length_fmap.
Qed.

Lemma top_rows_from_table (slice : string * Z) :
  slice ∈ top_rows -> ∃ r, r ∈ df ∧ slice = (label_col r, value_col r).
Proof.
  intros H. apply df_head_elem_of in H. unfold ordered in H.
  apply list_elem_of_fmap in H as (r & -> & Hr).
  exists r. split; [|done]. by eapply take_rows_elem_of.
Qed.

Lemma aggregate_negative_size :
  Exists (fun x => (x < 0)%Q) out.2 -> ∃ r, r ∈ df ∧ value_col r < 0.
Proof.
  intros H. apply Exists_exists in H as (x & Hin & Hx).
  assert (∃ slice, slice ∈ top_rows ∧ x = astype_float slice.2) as (slice & Hslice & ->).
  { destruct (aggregate_cases argsort_desc df value_col label_col top_n other_label)
      as [[_ Hout]|[Hpos Hout] ]; rewrite Hout in Hin; cbn [snd] in Hin.
    - rewrite <- list_fmap_compose in Hin.
      apply list_elem_of_fmap in Hin as (slice & -> & Hslice). by exists slice.
    - apply elem_of_app in Hin as [Hin|Hin].
      + rewrite <- list_fmap_compose in Hin.
        apply list_elem_of_fmap in Hin as (slice & -> & Hslice). by exists slice.
      + apply list_elem_of_singleton in Hin as ->.
        pose proof (proj1 (proj1 (astype_float_sign rest_sum)) Hx). lia. }
  apply top_rows_from_table in Hslice as (r & Hr & ->).
  exists r. split; [done|]. exact (proj1 (proj1 (astype_float_sign _)) Hx).
Qed.
End AggregatorSizes.

(** ** The store *)

Lemma bind_copy {B} (df : nat) (k : nat -> M B) (σ : store) :
  bind (copy df) k σ = k (fresh (dom σ)) (<[fresh (dom σ) := σ !!! df]> σ).
Proof. reflexivity. Qed.

Lemma bind_alloc {B} (f : DataFrame) (k : nat -> M B) (σ : store) :
  bind (alloc f) k σ = k (fresh (dom σ)) (<[fresh (dom σ) := f]> σ).
Proof. reflexivity. Qed.

Lemma bind_read {B} (df : nat) (k : DataFrame -> M B) (σ : store) :
  bind (read df) k σ = k (σ !!! df) σ.
Proof. reflexivity. Qed.

Lemma bind_setitem {B} (df : nat) (column : string) (series : list string)
    (k : unit -> M B) (σ : store) :
  bind (setitem df column series) k σ
  = k tt (<[df := {| rows := rows (σ !!! df);
                     assigned := <[column := series]> (assigned (σ !!! df)) |}]> σ).
Proof. reflexivity. Qed.

Lemma bind_with_column {B} (df : nat) (column : string) (series : list string)
    (k : list (Story * string) -> M B) (σ : store) :
  assigned (σ !!! df) !! column = Some series ->
  bind (with_column df column) k σ = k (zip (rows (σ !!! df)) series) σ.
Proof.
  intros H. unfold with_column, bind, read. by rewrite H.
Qed.

Lemma bind_lift {A B} (r : result A) (k : A -> M B) (σ : store) :
  bind (lift r) k σ = match r with Ok a => k a σ | Raise e => (Raise e, σ) end.
Proof. by destruct r. Qed.

Lemma fresh_not_allocated (σ : store) (l : nat) (f : DataFrame) :
  σ !! l = Some f -> l ≠ fresh (dom σ).
Proof.
  intros H ->. apply (is_fresh (dom σ)). apply elem_of_dom. by eexists.
Qed.

Section DashboardProperties.
Variable argsort_desc : list Z -> list nat.
Variable shorten : string -> Z -> string -> string.
Variable check_bracketed_netloc : string -> option string.
Variable check_nfkc : string -> option string.
Local Abbreviation plot := (plot_visualizations argsort_desc shorten check_bracketed_netloc check_nfkc).
Local Abbreviation label_of := (domain_label check_bracketed_netloc check_nfkc).
Local Abbreviation charts :=
  (draw_dashboard argsort_desc shorten check_bracketed_netloc check_nfkc).

(** A run gives what the steps give on the rows of the table, and leaves
    the store as it was plus one object, the copy, which has the rows of
    the table and the column TitleShort. *)
Lemma plot_visualizations_run (σ : store) (df : nat) :
  let f := σ !!! df in
  ∃ g, plot df σ = (charts (rows f), <[fresh (dom σ) := g]> σ)
       ∧ rows g = rows f
       ∧ assigned g !! "TitleShort"%string
         = Some (_short_titles shorten (Title <$> rows f) 40).
Proof.
  intros f. unfold plot_visualizations, draw_dashboard.
  rewrite bind_copy, bind_read, bind_setitem.
  rewrite !lookup_total_insert_eq, insert_insert_eq. fold f.
  rewrite (bind_with_column _ _ (_short_titles shorten (Title <$> rows f) 40))
    by (rewrite lookup_total_insert_eq; apply lookup_insert_eq).
  rewrite lookup_total_insert_eq. cbn [rows]. rewrite bind_lift.
  destruct (draw (vote_share _ _)) as [votes|e]; cbn [result_bind];
    [|eexists; split_and!; [reflexivity|done|apply lookup_insert_eq] ].
  rewrite (bind_with_column _ _ (_short_titles shorten (Title <$> rows f) 40))
    by (rewrite lookup_total_insert_eq; apply lookup_insert_eq).
  rewrite lookup_total_insert_eq. cbn [rows]. rewrite bind_lift.
  destruct (draw (comment_share _ _)) as [comments|e]; cbn [result_bind];
    [|eexists; split_and!; [reflexivity|done|apply lookup_insert_eq] ].
  rewrite bind_read, bind_lift, !lookup_total_insert_eq. cbn [rows].
  destruct (apply_series label_of (URL <$> rows f)) as [domains|e]; cbn [result_bind];
    [|eexists; split_and!; [reflexivity|done|apply lookup_insert_eq] ].
  rewrite bind_setitem, !lookup_total_insert_eq, insert_insert_eq.
  rewrite (bind_with_column _ _ domains)
    by (rewrite lookup_total_insert_eq; apply lookup_insert_eq).
  rewrite lookup_total_insert_eq. cbn [rows assigned]. rewrite bind_lift.
  destruct (draw (domain_share _ _)) as [by_domain|e]; cbn [result_bind].
  2:{ eexists. split_and!; [reflexivity|done|]. cbn [assigned].
      rewrite lookup_insert_ne by done. apply lookup_insert_eq. }
  rewrite bind_read, lookup_total_insert_eq. cbn [rows]. rewrite bind_lift.
  destruct (draw (engagement_chart _)) as [ratio|e]; cbn [result_bind];
    (eexists; split_and!; [reflexivity|done|]); cbn [assigned];
    rewrite lookup_insert_ne by done; apply lookup_insert_eq.
Qed.

Lemma plot_visualizations_result (σ : store) (df : nat) :
  (plot df σ).1 = charts (rows (σ !!! df)).
Proof. destruct (plot_visualizations_run σ df) as (g & -> & _). done. Qed.

Lemma domain_label_UrlError (url : cell) (e : exn) :
  label_of url = Raise e -> ∃ msg, e = UrlError msg.
Proof.
  unfold domain_label, urlparse_netloc, split_netloc, checknetloc.
  repeat (match goal with
          | |- context [match ?x with _ => _ end] => destruct x
          end; simpl); intros; simplify_eq; eauto.
Qed.

Lemma share_same_length (c : chart) (labels : list string) (sizes : list Q)
    (titled : list (Story * string)) :
  c = vote_share argsort_desc titled ∨ c = comment_share argsort_desc titled
  ∨ c = domain_share argsort_desc titled ->
  c = Pie labels sizes -> length labels = length sizes.
Proof.
  unfold vote_share, comment_share, domain_share. rewrite !pie_of_pair.
  intros [-> | [-> | ->] ]; intros [= <- <-]; apply aggregate_same_length.
Qed.

Lemma engagement_chart_sizes (table : list Story) (labels : list string) (sizes : list Q) :
  engagement_chart table = Pie labels sizes ->
  length labels = length sizes ∧ Forall (fun x => 0 <= x) sizes.
Proof.
  unfold engagement_chart. destruct (engagement table); [done|].
  intros [= <- <-]. split; [reflexivity|].
  repeat constructor; change 0 with (inject_Z 0); rewrite <- Zle_Qle; lia.
Qed.

(** The ends of the steps: the four charts asked for, each accepted by the
    renderer, or the exception of the first step that raises. *)
Lemma draw_dashboard_cases (table : list Story) :
  let titled := zip table (_short_titles shorten (Title <$> table) 40) in
  let votes := vote_share argsort_desc titled in
  let comments := comment_share argsort_desc titled in
  match charts table with
  | Ok d =>
      ∃ domains,
        apply_series label_of (URL <$> table) = Ok domains
        ∧ d = dashboard_of argsort_desc shorten table domains
        ∧ drawable (ax_votes d) ∧ drawable (ax_comments d)
        ∧ drawable (ax_domains d) ∧ drawable (ax_ratio d)
  | Raise e =>
      draw votes = Raise e
      ∨ (drawable votes ∧ draw comments = Raise e)
      ∨ (drawable votes ∧ drawable comments
         ∧ apply_series label_of (URL <$> table) = Raise e)
      ∨ (drawable votes ∧ drawable comments
         ∧ ∃ domains,
             apply_series label_of (URL <$> table) = Ok domains
             ∧ (draw (domain_share argsort_desc (zip table domains)) = Raise e
                ∨ (drawable (domain_share argsort_desc (zip table domains))
                   ∧ draw (engagement_chart table) = Raise e)))
  end.
Proof.
  intros titled votes comments. unfold draw_dashboard. fold titled votes comments.
  destruct (draw votes) as [c1|e] eqn:E1; cbn [result_bind]; [|by left].
  apply draw_Ok in E1 as [-> H1].
  destruct (draw comments) as [c2|e] eqn:E2; cbn [result_bind]; [|right; by left].
  apply draw_Ok in E2 as [-> H2].
  destruct (apply_series label_of (URL <$> table)) as [domains|e] eqn:E3;
    cbn [result_bind]; [|right; right; by left].
  destruct (draw (domain_share argsort_desc (zip table domains))) as [c3|e] eqn:E4;
    cbn [result_bind]; [|right; right; right; split_and!; try done; exists domains; auto].
  apply draw_Ok in E4 as [-> H4].
  destruct (draw (engagement_chart table)) as [c4|e] eqn:E5; cbn [result_bind];
    [|right; right; right; split_and!; try done; exists domains; auto].
  apply draw_Ok in E5 as [-> H5].
  exists domains. split_and!; done.
Qed.

Lemma draw_dashboard_raises (table : list Story) (e : exn) :
  charts table = Raise e ->
  e = NegativeWedge ∨ e = ZeroWedges ∨ ∃ msg, e = UrlError msg.
Proof.
  intros Hraise. pose proof (draw_dashboard_cases table) as Hcases.
  rewrite Hraise in Hcases. cbv zeta in Hcases.
  assert (∀ c titled,
            c = vote_share argsort_desc titled ∨ c = comment_share argsort_desc titled
            ∨ c = domain_share argsort_desc titled ->
            draw c = Raise e -> e = NegativeWedge ∨ e = ZeroWedges) as Hshare.
  { intros c titled Hc Hdraw.
    apply draw_Raise in Hdraw as (labels & sizes & Hpie & [ [-> _] | [ [-> _] | [_ Hlen] ] ]);
      auto.
    destruct Hlen. by eapply share_same_length. }
  destruct Hcases as [H|[[_ H]|[(_ & _ & H)|(_ & _ & domains & _ & [H|[_ H] ])] ] ].
  - destruct (Hshare _ _ (or_introl eq_refl) H); auto.
  - destruct (Hshare _ _ (or_intror (or_introl eq_refl)) H); auto.
  - apply apply_series_Raise in H as (url & _ & Hurl).
    right. right. by eapply domain_label_UrlError.
  - destruct (Hshare _ _ (or_intror (or_intror eq_refl)) H); auto.
  - apply draw_Raise in H as (labels & sizes & Hpie & [ [-> _] | [ [-> _] | [_ Hlen] ] ]);
      auto.
    destruct Hlen. by apply (engagement_chart_sizes table).
Qed.

Lemma plot_visualizations_raises (σ : store) (df : nat) (e : exn) :
  (plot df σ).1 = Raise e ->
  e = NegativeWedge ∨ e = ZeroWedges ∨ ∃ msg, e = UrlError msg.
Proof. rewrite plot_visualizations_result. apply draw_dashboard_raises. Qed.
End DashboardProperties.

(** ** More on the aggregator *)

Section AggregatorSlices.
Local Open Scope Z_scope.
Variable argsort_desc : list Z -> list nat.
Context {R : Type}.
Variables (df : list R) (value_col : R -> Z) (label_col : R -> string).
Variables (top_n : Z) (other_label : string).

Local Abbreviation out :=
  (_aggregate_top_share argsort_desc df value_col label_col top_n other_label).
Local Abbreviation ordered_rows := (ordered argsort_desc df value_col label_col).
Local Abbreviation top_rows := (top argsort_desc df value_col label_col top_n).
Local Abbreviation rest_sum := (remainder argsort_desc df value_col label_col top_n).

Lemma aggregate_labels_from_table (label : string) :
  label ∈ out.1 -> (∃ r, r ∈ df ∧ label = label_col r) ∨ label = other_label.
Proof.
  destruct (aggregate_cases argsort_desc df value_col label_col top_n other_label)
    as [[_ ->]|[_ ->]]; simpl; rewrite ?elem_of_app, ?list_elem_of_singleton;
    intros H; [|destruct H as [H|H]; [|by right] ]; left;
    apply list_elem_of_fmap in H as (slice & -> & Hslice);
    apply top_rows_from_table in Hslice as (r & Hr & ->); by exists r.
Qed.

Lemma aggregate_length_le :
  (0 <= top_n)%Z -> (length out.2 <= Z.to_nat top_n + 1)%nat.
Proof.
  intros Hn. pose proof (df_head_length_le top_n ordered_rows Hn) as Hlen.
  destruct (aggregate_cases argsort_desc df value_col label_col top_n other_label)
    as [[_ ->]|[_ ->]]; simpl; rewrite ?length_app, !length_fmap; simpl;
    unfold top; lia.
Qed.

Lemma zip_fmap_pairs {A B C} (f : A -> B) (g : A -> C) (l : list A) :
  zip (f <$> l) (g <$> l) = (fun x => (f x, g x)) <$> l.
Proof. induction l as [|x l IH]; csimpl; [done|]. by rewrite IH. Qed.

(** Whatever the sort returns, the aggregator invents no slice: a slice is a
    row of the table with its label and the float of its value, or it is
    the "Other" slice, which carries the float of the remainder, a positive
    number; labels and sizes have the same length. *)
Theorem aggregate_slices_from_table :
  let out := _aggregate_top_share argsort_desc df value_col label_col top_n other_label in
  length out.1 = length out.2
  ∧ ∀ slice, slice ∈ zip out.1 out.2 ->
      (∃ r, r ∈ df ∧ slice = (label_col r, astype_float (value_col r)))
      ∨ (slice = (other_label,
                  astype_float (remainder argsort_desc df value_col label_col top_n))
         ∧ 0 < remainder argsort_desc df value_col label_col top_n).
Proof.
  cbv zeta. split; [apply aggregate_same_length|].
  assert (∀ slice, slice ∈ zip (fst <$> top_rows) (astype_float <$> (snd <$> top_rows)) ->
                   ∃ r, r ∈ df ∧ slice = (label_col r, astype_float (value_col r)))
    as Htop.
  { intros slice. rewrite <- list_fmap_compose, zip_fmap_pairs.
    intros Hin. apply list_elem_of_fmap in Hin as (row & -> & Hrow).
    apply top_rows_from_table in Hrow as (r & Hr & ->). by exists r. }
  destruct (aggregate_cases argsort_desc df value_col label_col top_n other_label)
    as [[_ ->]|[Hpos ->]]; cbn [fst snd].
  - intros slice Hin. left. by apply Htop.
  - intros slice Hin.
    rewrite zip_with_app in Hin by (by rewrite !length_fmap).
    apply elem_of_app in Hin as [Hin|Hin].
    + left. by apply Htop.
    + right. simpl in Hin. apply list_elem_of_singleton in Hin. by subst.
Qed.

(** With [top_n] rows asked for, no more than [top_n + 1] slices come back,
    whatever the table and the sort. *)
Theorem aggregate_at_most_top_n_plus_one :
  (0 <= top_n)%Z ->
  (length (_aggregate_top_share argsort_desc df value_col label_col top_n other_label).2
   <= Z.to_nat top_n + 1)%nat.
Proof.
  intros Hn. pose proof (df_head_length_le top_n ordered_rows Hn) as Hlen.
  destruct (aggregate_cases argsort_desc df value_col label_col top_n other_label)
    as [[_ ->]|[_ ->]]; simpl; rewrite ?length_app, !length_fmap; simpl;
    unfold top; lia.
Qed.

(** The rows are split into the rows kept and the rows cut off; the
    remainder, and with it the "Other" slice, is the int64 sum of the rows
    cut off: their total when it fits the int64 range, and the total
    wrapped around when it does not. *)
Theorem other_slice_is_cut_off_total :
  argsort_desc_spec (value_col <$> df) (argsort_desc (value_col <$> df)) ->
  ∃ kept cut_off : list R,
    kept ++ cut_off ≡ₚ df
    ∧ sort_values argsort_desc df value_col = kept ++ cut_off
    ∧ top_rows = (fun r => (label_col r, value_col r)) <$> kept
    ∧ rest_sum = Series_sum (value_col <$> cut_off)
    ∧ (- 2 ^ 63 <= sumZ (value_col <$> cut_off) < 2 ^ 63 ->
       rest_sum = sumZ (value_col <$> cut_off))
    ∧ (Forall (fun r => 0 <= value_col r) df -> sumZ (value_col <$> df) < 2 ^ 63 ->
       rest_sum = sumZ (value_col <$> cut_off)).
Proof.
  intros [Hperm _].
  destruct (df_head_prefix top_n (sort_values argsort_desc df value_col))
    as [cut_off Hsplit].
  set (kept := df_head top_n (sort_values argsort_desc df value_col)) in *.
  exists kept, cut_off.
  assert (top_rows = (fun r => (label_col r, value_col r)) <$> kept) as Htop.
  { unfold top, ordered, kept. by rewrite df_head_fmap. }
  assert (kept ++ cut_off ≡ₚ df) as Hall.
  { rewrite <- Hsplit. by apply sort_values_Permutation. }
  assert (rest_sum = Series_sum (value_col <$> cut_off)) as Hrest.
  { rewrite (remainder_rest argsort_desc df value_col label_col top_n
               ((fun r => (label_col r, value_col r)) <$> cut_off)).
    - by rewrite <- list_fmap_compose.
    - rewrite Htop, <- fmap_app, <- Hsplit. done. }
  split_and!; [done..| |].
  - intros Hfit. rewrite Hrest. by apply Series_sum_exact.
  - intros Hpos Hfit. rewrite Hrest. apply Series_sum_exact.
    rewrite <- Hall in Hpos.
    rewrite <- (sumZ_Permutation _ _ (fmap_Permutation value_col _ _ Hall)),
      fmap_app, sumZ_app in Hfit.
    apply Forall_app in Hpos as [Hkept Hcut].
    pose proof (sumZ_nonneg (value_col <$> kept)) as H1.
    pose proof (sumZ_nonneg (value_col <$> cut_off)) as H2.
    specialize (H1 ltac:(by apply Forall_fmap)).
    specialize (H2 ltac:(by apply Forall_fmap)).
    pose proof (Z.pow_pos_nonneg 2 63). lia.
Qed.

(** Asking for no row gives the "Other" slice alone, with what the column
    adds up to as its size, or nothing when that is not positive; a
    negative [top_n] keeps all rows but the last [-top_n]. *)
Theorem aggregate_nonpositive_top_n :
  argsort_desc_spec (value_col <$> df) (argsort_desc (value_col <$> df)) ->
  (top_n = 0%Z ->
     rest_sum = Series_sum (value_col <$> df)
     ∧ (out = ([], []) ∨ out = ([other_label], [astype_float rest_sum])))
  ∧ ((top_n < 0)%Z ->
     length top_rows = (length df - Z.to_nat (- top_n))%nat).
Proof.
  intros [Hperm _]. split.
  - intros Hzero.
    assert (top_rows = []) as Htop by (unfold top; by rewrite Hzero).
    split.
    + rewrite (remainder_rest argsort_desc df value_col label_col top_n ordered_rows)
        by (by rewrite Htop).
      apply Series_sum_Permutation.
      by apply (ordered_Permutation argsort_desc df value_col label_col).
    + destruct (aggregate_cases argsort_desc df value_col label_col top_n other_label)
        as [[_ ->]|[_ ->]]; rewrite Htop; auto.
  - intros Hneg. unfold top. rewrite df_head_negative by done.
    by rewrite (ordered_length argsort_desc df value_col label_col Hperm).
Qed.
End AggregatorSlices.

(** ** Tables without equal values *)

Lemma StronglySorted_fmap_inv {A B} (f : A -> B) (R : relation B) (l : list A) :
  StronglySorted R (f <$> l) -> StronglySorted (fun x y => R (f x) (f y)) l.
Proof.
  induction l as [|x l IH]; csimpl; intros H; [constructor|].
  apply StronglySorted_inv in H as [Hl Hx]. constructor; [by apply IH|].
  apply Forall_forall. intros y Hy. rewrite Forall_forall in Hx.
  apply Hx, list_elem_of_fmap_2, Hy.
Qed.

Lemma argsort_desc_spec_sorted (keys : list Z) (indexer : list nat) :
  argsort_desc_spec keys indexer ->
  StronglySorted (fun i j => (key_at keys j <= key_at keys i)%Z) indexer
  ∧ ∀ i, i ∈ indexer -> (i < length keys)%nat.
Proof.
  intros [Hperm Hsorted].
  assert (∀ i, i ∈ indexer -> (i < length keys)%nat) as Hrange.
  { intros i Hi. rewrite Hperm in Hi. apply elem_of_seq in Hi. lia. }
  split; [|done].
  rewrite take_rows_in_range in Hsorted by (by apply Forall_forall).
  by apply StronglySorted_fmap_inv in Hsorted.
Qed.

(** When no two rows have the same value, the order of the rows is fixed
    by the values: every sort that meets the library's promise returns the
    same positions, and the aggregator the same slices. *)
Theorem aggregate_distinct_values_determined {R : Type}
    (argsort_1 argsort_2 : list Z -> list nat) (df : list R)
    (value_col : R -> Z) (label_col : R -> string) (top_n : Z) (other_label : string) :
  let keys := value_col <$> df in
  (∀ i j, (i < length keys)%nat -> (j < length keys)%nat ->
          key_at keys i = key_at keys j -> i = j) ->
  argsort_desc_spec keys (argsort_1 keys) ->
  argsort_desc_spec keys (argsort_2 keys) ->
  argsort_1 keys = argsort_2 keys
  ∧ _aggregate_top_share argsort_1 df value_col label_col top_n other_label
    = _aggregate_top_share argsort_2 df value_col label_col top_n other_label.
Proof.
  intros keys Hdistinct H1 H2.
  assert (argsort_1 keys = argsort_2 keys) as Heq.
  { destruct (argsort_desc_spec_sorted _ _ H1) as [Hs1 Hr1].
    destruct (argsort_desc_spec_sorted _ _ H2) as [Hs2 Hr2].
    eapply StronglySorted_unique_strong; [|exact Hs1|exact Hs2|].
    - intros i j Hi Hj Hle Hge. apply Hdistinct; auto. by apply Z.le_antisymm.
    - destruct H1 as [Hp1 _]. destruct H2 as [Hp2 _].
      by rewrite Hp1, Hp2. }
  split; [done|].
  unfold _aggregate_top_share, remainder, top, ordered, sort_values.
  fold keys. by rewrite Heq.
Qed.
(** ** More on the loader *)

Section LoaderProperties.
Context {RawCell : Type}.
Variable to_numeric : RawCell -> option Z.
Local Abbreviation load := (load_hackernews to_numeric).
Local Abbreviation valid := (validate_row to_numeric).

Lemma load_hackernews_length (data : list (CsvRow RawCell)) :
  (length (load data) <= length data)%nat
  ∧ (length (load data) = length data <-> Forall (fun r => is_Some (valid r)) data).
Proof.
  unfold load_hackernews. induction data as [|r data [IHle IHeq]]; csimpl.
  - split; [lia|]. split; [constructor|done].
  - rewrite Forall_cons. destruct (valid r) as [story|]; csimpl.
    + split; [lia|]. split.
      * intros H. split; [by eexists|]. apply IHeq. lia.
      * intros [_ H]. apply IHeq in H. lia.
    + split; [lia|]. split; [lia|]. intros [[? ?] _]. done.
Qed.

Lemma load_hackernews_titles (data : list (CsvRow RawCell)) :
  sublist (Title <$> load data) (csv_Title <$> data)
  ∧ sublist (URL <$> load data) (csv_URL <$> data).
Proof.
  unfold load_hackernews. induction data as [|r data [IHt IHu]]; csimpl; [done|].
  destruct (valid r) as [story|] eqn:E; csimpl.
  - unfold validate_row in E.
    destruct (to_numeric (csv_Votes r)), (to_numeric (csv_Comments r)); simplify_eq.
    simpl. split; by apply sublist_skip.
  - split; by apply sublist_cons.
Qed.

(** The loaded table holds the rows of the file whose Votes and Comments
    cells are both numbers, with these numbers and with the title and URL
    of the file, in the order of the file; no row is added, and all rows are
    kept exactly when every row is valid; loading two files one after the
    other gives the two tables one after the other. *)
Theorem load_hackernews_rows (data : list (CsvRow RawCell)) :
  (∀ story, story ∈ load data
     <-> ∃ r v c, r ∈ data
                  ∧ to_numeric (csv_Votes r) = Some v
                  ∧ to_numeric (csv_Comments r) = Some c
                  ∧ story = {| Title := csv_Title r; URL := csv_URL r;
                               Votes := v; Comments := c |})
  ∧ sublist (Title <$> load data) (csv_Title <$> data)
  ∧ sublist (URL <$> load data) (csv_URL <$> data)
  ∧ (length (load data) <= length data)%nat
  ∧ (length (load data) = length data
     <-> Forall (fun r => is_Some (to_numeric (csv_Votes r))
                          ∧ is_Some (to_numeric (csv_Comments r))) data)
  ∧ ∀ more, load (data ++ more) = load data ++ load more.
Proof.
  split_and!.
  - intros story. unfold load_hackernews. rewrite list_elem_of_omap. split.
    + intros (r & Hr & Hvalid). unfold validate_row in Hvalid.
      destruct (to_numeric (csv_Votes r)) as [v|] eqn:Ev; [|done].
      destruct (to_numeric (csv_Comments r)) as [c|] eqn:Ec; [|done].
      exists r, v, c. by simplify_eq.
    + intros (r & v & c & Hr & Hv & Hc & ->). exists r. split; [done|].
      unfold validate_row. by rewrite Hv, Hc.
  - apply load_hackernews_titles.
  - apply load_hackernews_titles.
  - apply load_hackernews_length.
  - destruct (load_hackernews_length data) as [_ ->].
    apply Forall_iff. intros r. unfold validate_row.
    destruct (to_numeric (csv_Votes r)), (to_numeric (csv_Comments r));
      split; try (intros [[? ?] [? ?]]); try (intros [? ?]); try done; eauto.
  - intros more. apply omap_app.
Qed.
End LoaderProperties.
(** ** More on the domain labels *)

Lemma up_to_delim_no_delim (s : string) :
  all_chars (fun c => negb (netloc_delim c)) (up_to_delim s) = true.
Proof.
  induction s as [|c s IH]; [done|]. simpl.
  destruct (netloc_delim c) eqn:E; [done|]. simpl. by rewrite E.
Qed.

Section LabelProperties.
Variable check_bracketed_netloc : string -> option string.
Variable check_nfkc : string -> option string.
Local Abbreviation netloc_of := (urlparse_netloc check_bracketed_netloc check_nfkc).
Local Abbreviation label_of := (domain_label check_bracketed_netloc check_nfkc).

Lemma urlparse_netloc_no_delim (url netloc : string) :
  netloc_of url = Ok netloc ->
  all_chars (fun c => negb (netloc_delim c)) netloc = true.
Proof.
  unfold urlparse_netloc, split_netloc.
  destruct (after_slashes _) as [rest|]; simpl.
  - generalize (up_to_delim rest) (up_to_delim_no_delim rest). intros n Hn.
    unfold checknetloc.
    repeat (match goal with
            | |- context [match ?x with _ => _ end] => destruct x eqn:?
            end; simpl); intros; simplify_eq; done.
  - by intros [= <-].
Qed.

(** A label is never empty and holds none of the characters / ? # that end
    a network location. *)
Theorem domain_label_well_formed (url : cell) (label : string) :
  label_of url = Ok label ->
  label ≠ EmptyString
  ∧ all_chars (fun c => negb (netloc_delim c)) label = true.
Proof.
  unfold domain_label. destruct (netloc_of (py_str url)) as [netloc|e] eqn:E; [|done].
  simpl. intros [= <-]. apply urlparse_netloc_no_delim in E.
  destruct netloc; simpl; [done|]. split; [done|exact E].
Qed.

(** The extraction of a table raises exactly when some URL does not parse,
    and then with the exception of the first such row. *)
Lemma apply_series_first_failure {A B} (f : A -> result B) (series : list A) (e : exn) :
  apply_series f series = Raise e
  <-> ∃ before x after,
        series = before ++ x :: after
        ∧ Forall (fun y => ∃ z, f y = Ok z) before
        ∧ f x = Raise e.
Proof.
  induction series as [|x series IH]; simpl.
  - split; [done|]. intros (before & y & after & H & _). by destruct before.
  - destruct (f x) as [z|e'] eqn:E; simpl.
    + assert (result_bind (apply_series f series) (fun ys => Ok (z :: ys)) = Raise e
              <-> apply_series f series = Raise e) as ->.
      { destruct (apply_series f series); simpl; split; congruence. }
      rewrite IH. split.
      * intros (before & y & after & -> & Hb & Hy).
        exists (x :: before), y, after. split_and!; [done| |done].
        constructor; [by eexists|done].
      * intros (before & y & after & H & Hb & Hy).
        destruct before as [|b before]; simplify_eq/=; [congruence|].
        apply Forall_cons in Hb as [_ Hb]. by exists before, y, after.
    + split.
      * intros [= ->]. exists [], x, series. by split_and!.
      * intros (before & y & after & H & Hb & Hy).
        destruct before as [|b before]; simplify_eq/=; [congruence|].
        apply Forall_cons in Hb as [[z Hz] _]. congruence.
Qed.
End LabelProperties.

(** ** The shape of the engagement chart *)

(** The engagement chart is the "no data" text, or a pie with the three
    labels in their fixed order and three counts; the counts add up to the
    number of rows whose ratio is not negative, a row with a negative ratio
    being in no bucket. *)
Theorem engagement_chart_shape (df : list Story) :
  (engagement df = [] ∧ engagement_chart df = TextOnly "No engagement data")
  ∨ ∃ quiet balanced buzzing : nat,
      engagement_chart df
      = Pie ["Quiet (<0.5)"; "Balanced (0.5-1.0)"; "Buzzing (>1.0)"]%string
            [inject_Z (Z.of_nat quiet); inject_Z (Z.of_nat balanced);
             inject_Z (Z.of_nat buzzing)]
      ∧ (quiet + balanced + buzzing
         = length (filter (fun row : Story * Q => Qle_bool 0 row.2 = true)
                     (engagement df)))%nat
      ∧ (quiet + balanced + buzzing <= length df)%nat.
Proof.
  destruct (engagement df) as [|row rated] eqn:E.
  { left. split; [done|]. unfold engagement_chart. by rewrite E. }
  right. rewrite <- E.
  destruct (engagement_chart_counts df) as (quiet & balanced & buzzing & Hchart & Hcount);
    [by rewrite E|].
  exists quiet, balanced, buzzing. split_and!; [done..|].
  rewrite Hcount. etransitivity; [apply length_filter|].
  unfold engagement. clear. induction df as [|r df IH]; csimpl; [done|].
  destruct (EngagementRatio r); csimpl; lia.
Qed.

(** ** The ends of a run *)

Lemma elem_of_zip_fmap {A B} (f : A -> B) (l : list A) (p : A * B) :
  p ∈ zip l (f <$> l) -> p.1 ∈ l ∧ p.2 = f p.1.
Proof.
  induction l as [|x l IH]; csimpl; [by inversion 1|].
  rewrite !elem_of_cons. intros [->|H]; [by split; [left|]|].
  destruct (IH H). split; [by right|done].
Qed.

Lemma fmap_fst_zip {A B C} (f : A -> C) (l : list A) (k : list B) :
  length l = length k -> (fun p : A * B => f p.1) <$> zip l k = f <$> l.
Proof.
  revert k. induction l as [|x l IH]; intros [|y k] Hlen; simplify_eq/=; [done|].
  by rewrite IH.
Qed.

Lemma Forall_fst_zip {A B} (P : A -> Prop) (l : list A) (k : list B) :
  Forall P l -> Forall (fun p : A * B => P p.1) (zip l k).
Proof.
  intros H. revert k. induction H as [|x l Hx _ IH]; intros [|y k]; simpl;
    constructor; auto.
Qed.


Section RunProperties.
Variable argsort_desc : list Z -> list nat.
Variable shorten : string -> Z -> string -> string.
Variable check_bracketed_netloc : string -> option string.
Variable check_nfkc : string -> option string.
Local Abbreviation plot :=
  (plot_visualizations argsort_desc shorten check_bracketed_netloc check_nfkc).
Local Abbreviation label_of := (domain_label check_bracketed_netloc check_nfkc).
Local Abbreviation charts :=
  (draw_dashboard argsort_desc shorten check_bracketed_netloc check_nfkc).
Local Abbreviation short_title :=
  (fun r : Story => shorten (py_str (Title r)) 40 "…").
Local Abbreviation votes_of := (fun r : Story * string => Votes r.1).
Local Abbreviation comments_of := (fun r : Story * string => Comments r.1).

(** What the renderer can refuse of a pie of the aggregator: a negative
    size, which is the value of a row, or sizes that are all zero. *)
Lemma aggregate_pie_Raise {R} (df : list R) (value_col : R -> Z) (label_col : R -> string)
    (top_n : Z) (other_label : string) (e : exn) :
  let out := _aggregate_top_share argsort_desc df value_col label_col top_n other_label in
  draw (Pie out.1 out.2) = Raise e ->
  (e = NegativeWedge ∧ ∃ r, r ∈ df ∧ (value_col r < 0)%Z)
  ∨ (e = ZeroWedges ∧ Forall (fun x => x == 0) out.2).
Proof.
  intros out Hdraw. apply _plot_pie_Raise in Hdraw as [ [-> Hneg] | [ [-> Hzero] | [_ Hlen] ] ].
  - left. split; [done|]. by eapply aggregate_negative_size.
  - by right.
  - destruct Hlen. apply aggregate_same_length.
Qed.

Lemma engagement_pie_Raise (table : list Story) (e : exn) :
  draw (engagement_chart table) = Raise e ->
  e = ZeroWedges
  ∧ ∃ labels sizes, engagement_chart table = Pie labels sizes
                    ∧ Forall (fun x => x == 0) sizes.
Proof.
  intros Hdraw.
  apply draw_Raise in Hdraw as (labels & sizes & Hpie & Hcases).
  destruct (engagement_chart_sizes table labels sizes Hpie) as [Hlen Hpos].
  destruct Hcases as [ [_ Hneg] | [ [-> Hzero] | [_ Hne] ] ]; [|by eauto|done].
  apply Exists_exists in Hneg as (x & Hin & Hx).
  rewrite Forall_forall in Hpos. specialize (Hpos x Hin). lra.
Qed.


(** A column assignment changes the object it is applied to. *)
Lemma setitem_changes_object (σ : store) (df : nat) (column : string)
    (series : list string) :
  (setitem df column series σ).2 !! df
  = Some {| rows := rows (σ !!! df);
            assigned := <[column := series]> (assigned (σ !!! df)) |}.
Proof. apply lookup_insert_eq. Qed.

(** The store after the renderer is the store before it plus one new object,
    the copy. *)
Lemma plot_visualizations_store (σ : store) (df : nat) :
  ∃ g, (plot df σ).2 = <[fresh (dom σ) := g]> σ
       ∧ rows g = rows (σ !!! df)
       ∧ assigned g !! "TitleShort"%string
         = Some (_short_titles shorten (Title <$> rows (σ !!! df)) 40).
Proof.
  destruct (plot_visualizations_run argsort_desc shorten check_bracketed_netloc
              check_nfkc σ df) as (g & -> & Hrows & Hcol).
  by exists g.
Qed.

Lemma plot_visualizations_keeps (σ : store) (df l : nat) (g : DataFrame) :
  σ !! l = Some g -> (plot df σ).2 !! l = Some g.
Proof.
  intros Hl. destruct (plot_visualizations_store σ df) as (copy & -> & _).
  rewrite lookup_insert_ne; [done|]. symmetry. by eapply fresh_not_allocated.
Qed.

(** C9: the renderer does not change the table it is given, nor any other
    object that existed before the call: the store after the call is the
    store before it plus one new object, the copy, which has the rows of
    the table and carries the assigned column TitleShort. *)
Theorem plot_visualizations_keeps_table (σ : store) (df : nat) (f : DataFrame) :
  σ !! df = Some f ->
  (plot df σ).2 !! df = Some f
  ∧ (∀ l g, σ !! l = Some g -> (plot df σ).2 !! l = Some g)
  ∧ ∃ l g,
      σ !! l = None ∧ (plot df σ).2 = <[l := g]> σ
      ∧ rows g = rows f
      ∧ assigned g !! "TitleShort"%string
        = Some (_short_titles shorten (Title <$> rows f) 40).
Proof.
  intros Hdf.
  assert (σ !!! df = f) as Hf by (by apply lookup_total_correct).
  split_and!.
  - by apply plot_visualizations_keeps.
  - intros l g. apply plot_visualizations_keeps.
  - destruct (plot_visualizations_store σ df) as (g & Hrun & Hrows & Hcol).
    rewrite Hf in Hrows, Hcol.
    exists (fresh (dom σ)), g. split_and!; try done.
    apply not_elem_of_dom, is_fresh.
Qed.

Lemma plot_visualizations_Ok (σ : store) (df : nat) (d : dashboard) :
  (plot df σ).1 = Ok d ->
  ∃ domains,
    apply_series label_of (URL <$> rows (σ !!! df)) = Ok domains
    ∧ Forall2 (fun r label => label_of (URL r) = Ok label) (rows (σ !!! df)) domains
    ∧ d = dashboard_of argsort_desc shorten (rows (σ !!! df)) domains.
Proof.
  rewrite plot_visualizations_result. intros Hrun.
  pose proof (draw_dashboard_cases argsort_desc shorten check_bracketed_netloc
                check_nfkc (rows (σ !!! df))) as Hcases.
  rewrite Hrun in Hcases. destruct Hcases as (domains & Hdomains & -> & _).
  exists domains. split_and!; [done| |done].
  by apply apply_series_Ok, Forall2_fmap_l in Hdomains.
Qed.

(** The labels of the charts of a run come from the table: a label of the
    vote or comment pie is the shortened title of a row or "Other stories",
    and a label of the domain pie is the domain label of a row or "Other
    domains". *)
Theorem plot_visualizations_labels (σ : store) (df : nat) (d : dashboard) :
  (plot df σ).1 = Ok d ->
  ∃ vote_labels vote_sizes comment_labels comment_sizes domain_labels domain_sizes,
    ax_votes d = Pie vote_labels vote_sizes
    ∧ ax_comments d = Pie comment_labels comment_sizes
    ∧ ax_domains d = Pie domain_labels domain_sizes
    ∧ (∀ label, label ∈ vote_labels ∨ label ∈ comment_labels ->
         (∃ r, r ∈ rows (σ !!! df) ∧ label = short_title r)
         ∨ label = "Other stories"%string)
    ∧ (∀ label, label ∈ domain_labels ->
         (∃ r, r ∈ rows (σ !!! df) ∧ label_of (URL r) = Ok label)
         ∨ label = "Other domains"%string).
Proof.
  intros Hrun. apply plot_visualizations_Ok in Hrun as (domains & _ & Hdomains & ->).
  set (table := rows (σ !!! df)) in *.
  unfold dashboard_of, vote_share, comment_share, domain_share.
  cbn [ax_votes ax_comments ax_domains]. rewrite !pie_of_pair. eexists _, _, _, _, _, _.
  split_and!; [reflexivity..| |].
  - assert (∀ p, p ∈ zip table (_short_titles shorten (Title <$> table) 40) ->
                 p.1 ∈ table ∧ p.2 = short_title p.1) as Hzip.
    { intros p. unfold _short_titles. rewrite <- list_fmap_compose.
      intros Hp. by apply elem_of_zip_fmap in Hp. }
    intros label [H|H]; apply aggregate_labels_from_table in H as [(p & Hp & Hl) | Hl];
      subst label; auto; left; destruct (Hzip p Hp) as [Hin Heq]; exists p.1;
      by rewrite Heq.
  - intros label H.
    apply aggregate_labels_from_table in H as [(g & Hg & Hl) | Hl]; subst label;
      [|by right].
    left.
    assert (g.1 ∈ fst <$> groupby_sum snd votes_of (zip table domains))
      as Hkey by (by apply list_elem_of_fmap_2).
    apply groupby_fold in Hkey as [Hkey|(p & Hp & Hkey)]; [by inversion Hkey|].
    apply list_elem_of_lookup in Hp as [i Hi].
    apply lookup_zip_with_Some in Hi as (r & lab & -> & Hr & Hlab).
    exists r. split; [by eapply list_elem_of_lookup_2|].
    simpl in Hkey. subst lab.
    by destruct (Forall2_lookup_lr _ _ _ _ _ _ Hdomains Hr Hlab).
Qed.

(** With a sort that keeps the library's promise and a table whose votes
    and comments are not negative and add up to at most 2^53 each, no sum
    wraps around and no conversion rounds: the sizes of the vote pie and of
    the domain pie add up to the total of the votes, those of the comment
    pie to the total of the comments; the two story pies have at most six
    slices and the domain pie at most seven. *)
Theorem plot_visualizations_totals (σ : store) (df : nat) (d : dashboard) :
  (∀ keys, argsort_desc_spec keys (argsort_desc keys)) ->
  Forall (fun r => (0 <= Votes r)%Z ∧ (0 <= Comments r)%Z) (rows (σ !!! df)) ->
  (sumZ (Votes <$> rows (σ !!! df)) <= 2 ^ 53)%Z ->
  (sumZ (Comments <$> rows (σ !!! df)) <= 2 ^ 53)%Z ->
  (plot df σ).1 = Ok d ->
  ∃ vote_labels vote_sizes comment_labels comment_sizes domain_labels domain_sizes,
    ax_votes d = Pie vote_labels vote_sizes
    ∧ ax_comments d = Pie comment_labels comment_sizes
    ∧ ax_domains d = Pie domain_labels domain_sizes
    ∧ sumQ vote_sizes == inject_Z (sumZ (Votes <$> rows (σ !!! df)))
    ∧ sumQ comment_sizes == inject_Z (sumZ (Comments <$> rows (σ !!! df)))
    ∧ sumQ domain_sizes == inject_Z (sumZ (Votes <$> rows (σ !!! df)))
    ∧ (length vote_sizes <= 6)%nat
    ∧ (length comment_sizes <= 6)%nat
    ∧ (length domain_sizes <= 7)%nat.
Proof.
  intros Hsort Hpos Hvotes Hcomments Hrun.
  apply plot_visualizations_Ok in Hrun as (domains & _ & Hdomains & ->).
  set (table := rows (σ !!! df)) in *.
  assert (length table = length (_short_titles shorten (Title <$> table) 40)) as Htitles.
  { unfold _short_titles. by rewrite !length_fmap. }
  assert (length table = length domains) as Hlen by (by eapply Forall2_length).
  assert (Forall (fun r => (0 <= Votes r)%Z) table) as Hv.
  { eapply Forall_impl; [exact Hpos|]. by intros r [? _]. }
  assert (Forall (fun r => (0 <= Comments r)%Z) table) as Hc.
  { eapply Forall_impl; [exact Hpos|]. by intros r [_ ?]. }
  unfold dashboard_of, vote_share, comment_share, domain_share.
  cbn [ax_votes ax_comments ax_domains]. rewrite !pie_of_pair. eexists _, _, _, _, _, _.
  split_and!; [reflexivity..| | | | | |].
  - rewrite aggregate_sum_total.
    + by rewrite fmap_fst_zip.
    + by apply (Forall_fst_zip (fun r => (0 <= Votes r)%Z)).
    + by rewrite fmap_fst_zip.
    + apply Hsort.
  - rewrite aggregate_sum_total.
    + by rewrite fmap_fst_zip.
    + by apply (Forall_fst_zip (fun r => (0 <= Comments r)%Z)).
    + by rewrite fmap_fst_zip.
    + apply Hsort.
  - destruct (groupby_sum_exact snd votes_of (zip table domains)) as [Hgroups Hsum].
    { by apply (Forall_fst_zip (fun r => (0 <= Votes r)%Z)). }
    { rewrite fmap_fst_zip by done. eapply Z.le_lt_trans; [exact Hvotes|reflexivity]. }
    rewrite fmap_fst_zip in Hsum by done.
    rewrite aggregate_sum_total.
    + by rewrite Hsum.
    + exact Hgroups.
    + by rewrite Hsum.
    + apply Hsort.
  - by apply (aggregate_length_le _ _ _ _ 5).
  - by apply (aggregate_length_le _ _ _ _ 5).
  - by apply (aggregate_length_le _ _ _ _ 6).
Qed.

(** The extraction fails on the first row, in table order, whose URL does
    not parse, once the two story pies are drawn: a run raises the
    [ValueError] of [urlparse] exactly when the renderer accepts the vote
    pie and the comment pie and the table splits into rows whose URLs
    parse, a row whose URL raises that exception, and the rest. *)
Theorem plot_visualizations_first_failure (σ : store) (df : nat) (msg : string) :
  let table := rows (σ !!! df) in
  let titled := zip table (_short_titles shorten (Title <$> table) 40) in
  (plot df σ).1 = Raise (UrlError msg)
  <-> drawable (vote_share argsort_desc titled)
      ∧ drawable (comment_share argsort_desc titled)
      ∧ ∃ parsed row rest,
          table = parsed ++ row :: rest
          ∧ Forall (fun r => ∃ label, label_of (URL r) = Ok label) parsed
          ∧ label_of (URL row) = Raise (UrlError msg).
Proof.
  intros table titled. rewrite plot_visualizations_result. fold table.
  assert (charts table = Raise (UrlError msg)
          <-> drawable (vote_share argsort_desc titled)
              ∧ drawable (comment_share argsort_desc titled)
              ∧ apply_series label_of (URL <$> table) = Raise (UrlError msg)) as ->.
  { split.
    - intros Hrun.
      pose proof (draw_dashboard_cases argsort_desc shorten check_bracketed_netloc
                    check_nfkc table) as Hcases.
      rewrite Hrun in Hcases. cbv zeta in Hcases. fold titled in Hcases.
      unfold vote_share, comment_share, domain_share in *. rewrite !pie_of_pair in *.
      destruct Hcases
        as [H | [ [_ H] | [ H | (_ & _ & domains & Hd & [H | [_ H] ]) ] ] ]; [..|done| |].
      + apply aggregate_pie_Raise in H as [ [? _] | [? _] ]; done.
      + apply aggregate_pie_Raise in H as [ [? _] | [? _] ]; done.
      + apply aggregate_pie_Raise in H as [ [? _] | [? _] ]; done.
      + apply engagement_pie_Raise in H as [? _]; done.
    - intros (Hv & Hc & Hurl). unfold draw_dashboard. fold table titled.
      rewrite (proj2 (draw_Ok _ _) (conj eq_refl Hv)). cbn [result_bind].
      rewrite (proj2 (draw_Ok _ _) (conj eq_refl Hc)). cbn [result_bind].
      by rewrite Hurl. }
  rewrite apply_series_first_failure. split.
  - intros (Hv & Hc & before & url & after & Hsplit & Hbefore & Hurl).
    split_and!; [done..|].
    apply fmap_app_inv in Hsplit as (parsed & tail & -> & Htail & ->).
    symmetry in Htail. apply fmap_cons_inv in Htail as (row & rest & -> & -> & ->).
    exists parsed, row, rest. split_and!; [done| |done].
    apply Forall_forall. intros r Hr. rewrite Forall_forall in Hbefore.
    by apply Hbefore, list_elem_of_fmap_2.
  - intros (Hv & Hc & parsed & row & rest & Htable & Hparsed & Hrow).
    split_and!; [done..|].
    exists (URL <$> parsed), (URL row), (URL <$> rest).
    split_and!; [by rewrite Htable, fmap_app| |done].
    apply Forall_forall. intros url Hin.
    apply list_elem_of_fmap in Hin as (r & -> & Hr).
    rewrite Forall_forall in Hparsed. by apply Hparsed.
Qed.

(** Rendering a table a second time draws what the first rendering drew:
    the first run leaves the table as it was. *)
Theorem plot_visualizations_twice (σ : store) (df : nat) (f : DataFrame) :
  σ !! df = Some f ->
  (plot df (plot df σ).2).1 = (plot df σ).1.
Proof.
  intros Hdf.
  assert ((plot df σ).2 !!! df = σ !!! df) as Hsame.
  { apply lookup_total_correct. rewrite (lookup_total_correct _ _ _ Hdf).
    by apply plot_visualizations_keeps. }
  by rewrite !plot_visualizations_result, Hsame.
Qed.

Context {RawCell : Type}.
Variable to_numeric : RawCell -> option Z.
Local Abbreviation run_main :=
  (main argsort_desc shorten check_bracketed_netloc check_nfkc to_numeric).
Local Abbreviation load := (load_hackernews to_numeric).
Local Abbreviation valid := (validate_row to_numeric).

Lemma main_run (script_dir : string) (files : gmap string (list (CsvRow RawCell)))
    (σ : store) :
  run_main script_dir files σ
  = match files !! data_path script_dir with
    | None => (Raise (DatasetNotFound (data_path script_dir)), σ)
    | Some data =>
        let df := fresh (dom σ) in
        let σ' := <[df := {| rows := load data; assigned := ∅ |}]> σ in
        match load data with
        | [] => (Raise NoValidRows, σ')
        | _ => plot df σ'
        end
    end.
Proof.
  unfold main. destruct (files !! data_path script_dir) as [data|]; [|done].
  rewrite bind_alloc, bind_read, lookup_total_insert_eq. simpl.
  by destruct (load data).
Qed.

Lemma validate_row_None (r : CsvRow RawCell) :
  valid r = None
  <-> to_numeric (csv_Votes r) = None ∨ to_numeric (csv_Comments r) = None.
Proof.
  unfold validate_row.
  destruct (to_numeric (csv_Votes r)), (to_numeric (csv_Comments r));
    split; intros H; try done; auto; by destruct H.
Qed.

Lemma load_hackernews_nil (data : list (CsvRow RawCell)) :
  load data = [] <-> Forall (fun r => valid r = None) data.
Proof.
  unfold load_hackernews. induction data as [|r data IH]; [done|].
  csimpl. rewrite Forall_cons. destruct (valid r); [|by rewrite IH; tauto].
  split; [done|]. by intros [? _].
Qed.

Lemma load_hackernews_drops (before after : list (CsvRow RawCell)) (bad : CsvRow RawCell) :
  valid bad = None -> load (before ++ bad :: after) = load (before ++ after).
Proof.
  intros H. unfold load_hackernews. rewrite !omap_app. csimpl. by rewrite H.
Qed.

(** C5: the driver ends with the "dataset not found" error exactly when
    the path of the dataset does not exist, and with the "no valid rows"
    error exactly when the file exists and every row has a Votes or a
    Comments cell that is not a number.  A row with such a cell is left
    out of the table, and the run is the run on the file without that
    row. *)
Theorem main_failures (script_dir : string)
    (files : gmap string (list (CsvRow RawCell))) (σ : store) :
  let path := data_path script_dir in
  let not_numeric r :=
    to_numeric (csv_Votes r) = None ∨ to_numeric (csv_Comments r) = None in
  ((∃ p, (run_main script_dir files σ).1 = Raise (DatasetNotFound p))
   <-> files !! path = None)
  ∧ ((run_main script_dir files σ).1 = Raise NoValidRows
     <-> ∃ data, files !! path = Some data ∧ Forall not_numeric data)
  ∧ (∀ before bad after,
       files !! path = Some (before ++ bad :: after) -> not_numeric bad ->
       load (before ++ bad :: after) = load (before ++ after)
       ∧ run_main script_dir files σ
         = run_main script_dir (<[path := before ++ after]> files) σ).
Proof.
  intros path not_numeric.
  assert (∀ data, Forall not_numeric data <-> load data = []) as Hnil.
  { intros data. rewrite load_hackernews_nil. apply Forall_iff. intros r.
    symmetry. apply validate_row_None. }
  assert (∀ σ' df e, (plot df σ').1 = Raise e ->
                     e ≠ NoValidRows ∧ ∀ p, e ≠ DatasetNotFound p) as Hplot.
  { intros σ' df e He.
    apply plot_visualizations_raises in He as [-> | [-> | [msg ->] ] ]; done. }
  split_and!.
  - rewrite main_run. fold path. destruct (files !! path) as [data|]; simpl.
    + split; [|done]. intros [p Hp]. destruct (load data) eqn:E; [done|].
      apply Hplot in Hp as [_ Hp]. by destruct (Hp p).
    + split; [done|]. by eexists.
  - rewrite main_run. fold path. destruct (files !! path) as [data|]; simpl.
    + split.
      * intros Hraise. exists data. split; [done|]. apply Hnil.
        destruct (load data) eqn:E; [done|].
        by apply Hplot in Hraise as [Hraise _].
      * intros (data' & [= <-] & Hall). apply Hnil in Hall. by rewrite Hall.
    + split; [done|]. by intros (data & ? & _).
  - intros before bad after Hfile Hbad.
    apply validate_row_None in Hbad.
    split; [by apply load_hackernews_drops|].
    rewrite !main_run. fold path. rewrite Hfile, lookup_insert_eq.
    by rewrite (load_hackernews_drops before after bad).
Qed.

(** The table loaded by the driver has, after the run, the rows the loader
    gave it and no assigned column, and the objects that existed before the
    run are as they were. *)
Theorem main_keeps_loaded_table (script_dir : string)
    (files : gmap string (list (CsvRow RawCell))) (σ : store)
    (data : list (CsvRow RawCell)) :
  files !! data_path script_dir = Some data ->
  (run_main script_dir files σ).2 !! fresh (dom σ)
  = Some {| rows := load data; assigned := ∅ |}
  ∧ ∀ l g, σ !! l = Some g -> (run_main script_dir files σ).2 !! l = Some g.
Proof.
  intros Hfile. rewrite main_run, Hfile. simpl.
  assert (∀ l g, σ !! l = Some g -> l ≠ fresh (dom σ)) as Hfresh.
  { intros l g. apply fresh_not_allocated. }
  destruct (load data) as [|r table] eqn:E; simpl.
  - split; [apply lookup_insert_eq|].
    intros l g Hl. rewrite lookup_insert_ne; [done|]. symmetry. by eapply Hfresh.
  - split.
    + apply plot_visualizations_keeps, lookup_insert_eq.
    + intros l g Hl. apply plot_visualizations_keeps.
      rewrite lookup_insert_ne; [done|]. symmetry. by eapply Hfresh.
Qed.

End RunProperties.

(** ** The order of the buckets *)

(** A larger ratio is never put into a quieter bucket. *)
Theorem engagement_bucket_monotone (x y : Q) :
  0 <= x -> x <= y ->
  (cut engagement_edges engagement_labels y = Some "Quiet (<0.5)"%string ->
   cut engagement_edges engagement_labels x = Some "Quiet (<0.5)"%string)
  ∧ (cut engagement_edges engagement_labels x = Some "Buzzing (>1.0)"%string ->
     cut engagement_edges engagement_labels y = Some "Buzzing (>1.0)"%string)
  ∧ (cut engagement_edges engagement_labels x = Some "Balanced (0.5-1.0)"%string ->
     cut engagement_edges engagement_labels y ≠ Some "Quiet (<0.5)"%string).
Proof.
  intros Hx Hxy.
  destruct (cut_engagement x) as (_ & Hxq & Hxb & Hxz).
  destruct (cut_engagement y) as (_ & Hyq & Hyb & Hyz).
  destruct (Qlt_le_dec (1 # 2) x) as [Hx1|Hx1]; [destruct (Qlt_le_dec 1 x) as [Hx2|Hx2]|];
  (destruct (Qlt_le_dec (1 # 2) y) as [Hy1|Hy1]; [destruct (Qlt_le_dec 1 y) as [Hy2|Hy2]|]);
  try lra;
  rewrite ?Hxq, ?Hxb, ?Hxz, ?Hyq, ?Hyb, ?Hyz by lra; split_and!; congruence.
Qed.

(** ** The properties at sample inputs *)

Lemma sample_votes_argsort :
  argsort_desc_spec (Votes <$> sample_table) (stable_argsort_desc (Votes <$> sample_table)).
Proof.
  split; [reflexivity|]. unfold descending. repeat constructor; discriminate.
Defined.

Lemma sample_votes_distinct (i j : nat) :
  (i < length (Votes <$> sample_table))%nat ->
  (j < length (Votes <$> sample_table))%nat ->
  key_at (Votes <$> sample_table) i = key_at (Votes <$> sample_table) j -> i = j.
Proof.
  destruct i as [|[|[|i] ] ]; destruct j as [|[|[|j] ] ]; simpl;
    intros Hi Hj H; try reflexivity; try discriminate; lia.
Qed.

Lemma aggregate_sizes_sum_witness :
  ∃ parts : list Z,
    (_aggregate_top_share stable_argsort_desc sample_table Votes title_of 2
       "Other stories").2 = astype_float <$> parts
    ∧ Forall (fun x => (0 <= x)%Z) parts
    ∧ sumZ parts = 160%Z
    ∧ ((160 <= 2 ^ 53)%Z ->
       sumQ (_aggregate_top_share stable_argsort_desc sample_table Votes title_of 2
               "Other stories").2 == inject_Z 160).
Proof.
  apply (aggregate_sizes_sum stable_argsort_desc sample_table Votes title_of 2
           "Other stories").
  - repeat constructor; discriminate.
  - reflexivity.
  - apply sample_votes_argsort.
Defined.

(** C3, counterexample: three stories with 2^62 votes each.  No cell is
    negative, and the total of the column is 3 * 2^62; as an int64 sum it
    wraps around to -2^62, the remainder after the first row comes out as
    -2^63, no "Other" slice is added, and the sizes are the single float
    2^62, a third of the total.  Every sort gives these sizes, the three
    values being equal. *)
Lemma aggregate_sizes_sum_counterexample :
  Forall (fun r : string * Z => (0 <= r.2)%Z) huge_table
  ∧ sumZ (snd <$> huge_table) = (3 * 2 ^ 62)%Z
  ∧ Series_sum (snd <$> huge_table) = (- 2 ^ 62)%Z
  ∧ remainder stable_argsort_desc huge_table snd fst 1 = (- 2 ^ 63)%Z
  ∧ _aggregate_top_share stable_argsort_desc huge_table snd fst 1 "Other"
    = (["A"%string], [inject_Z (2 ^ 62)])
  ∧ 3 * sumQ (_aggregate_top_share stable_argsort_desc huge_table snd fst 1 "Other").2
    == inject_Z (sumZ (snd <$> huge_table))
  ∧ ¬ sumQ (_aggregate_top_share stable_argsort_desc huge_table snd fst 1 "Other").2
      == inject_Z (sumZ (snd <$> huge_table))
  ∧ ∀ argsort_desc : list Z -> list nat,
      argsort_desc_spec (snd <$> huge_table) (argsort_desc (snd <$> huge_table)) ->
      (_aggregate_top_share argsort_desc huge_table snd fst 1 "Other").2
      = [inject_Z (2 ^ 62)].
Proof.
  split_and!.
  - repeat constructor; discriminate.
  - reflexivity.
  - reflexivity.
  - reflexivity.
  - reflexivity.
  - reflexivity.
  - discriminate.
  - intros argsort_desc [Hperm _].
    assert (snd <$> ordered argsort_desc huge_table snd fst
            = [2 ^ 62; 2 ^ 62; 2 ^ 62]%Z) as Hvalues.
    { rewrite ordered_values, take_rows_in_range.
      2:{ rewrite Hperm. apply Forall_forall. intros i Hi. apply elem_of_seq in Hi. lia. }
      pose proof (Permutation_length Hperm) as Hlen.
      assert (∀ i, i ∈ argsort_desc (snd <$> huge_table) ->
                   key_at (snd <$> huge_table) i = (2 ^ 62)%Z) as Hkey.
      { intros i Hi. rewrite Hperm in Hi. apply elem_of_seq in Hi.
        destruct i as [|[|[|i] ] ]; try reflexivity. simpl in Hi. lia. }
      destruct (argsort_desc (snd <$> huge_table)) as [|i [|j [|k [|l rest] ] ] ];
        try discriminate.
      csimpl. rewrite !Hkey by set_solver. done. }
    assert (snd <$> top argsort_desc huge_table snd fst 1 = [2 ^ 62]%Z) as Htop.
    { unfold top. by rewrite df_head_fmap, Hvalues. }
    unfold _aggregate_top_share, remainder. rewrite Htop, Hvalues.
    change (0 <? wrap_int64 (Series_sum [2 ^ 62; 2 ^ 62; 2 ^ 62] - Series_sum [2 ^ 62]))%Z
      with false.
    cbn [snd]. rewrite Htop. reflexivity.
Qed.

Lemma aggregate_lengths_witness :
  length (_aggregate_top_share stable_argsort_desc sample_table Votes title_of 2
            "Other stories").2 = 3%nat.
Proof.
  assert (0 <= 2)%Z as Hn by lia.
  destruct (aggregate_lengths stable_argsort_desc sample_table Votes title_of 2
              "Other stories" Hn sample_votes_argsort) as (_ & _ & Hmore & _).
  apply Hmore. reflexivity.
Defined.

Lemma aggregate_sizes_descending_witness :
  descending (snd <$> top stable_argsort_desc sample_table Votes title_of 2).
Proof.
  exact (proj1 (aggregate_sizes_descending stable_argsort_desc sample_table Votes
                  title_of 2 "Other stories" sample_votes_argsort)).
Defined.

(** C1, counterexample: a story with as many comments as votes has ratio 1,
    which lies in [1.0, +infinity), and is put into "Balanced (0.5-1.0)",
    not into "Buzzing (>1.0)". *)
Lemma ratio_one_counterexample :
  ∃ r, EngagementRatio story_even = Some r
       ∧ 1 <= r
       ∧ cut engagement_edges engagement_labels r = Some "Balanced (0.5-1.0)"%string
       ∧ cut engagement_edges engagement_labels r ≠ Some "Buzzing (>1.0)"%string.
Proof.
  eexists. split; [reflexivity|]. split; [discriminate|]. split; [reflexivity|discriminate].
Qed.

(** At ratio 0.5 the label is "Quiet (<0.5)". *)
Example ratio_half_is_quiet :
  ∃ r, EngagementRatio story_half = Some r
       ∧ r == 1 # 2
       ∧ cut engagement_edges engagement_labels r = Some "Quiet (<0.5)"%string.
Proof. eexists. split; [reflexivity|]. split; reflexivity. Qed.

Lemma engagement_bucket_of_ratio_witness :
  ∃ r label,
    EngagementRatio story_B = Some r
    ∧ cut engagement_edges engagement_labels r = Some label
    ∧ label = "Quiet (<0.5)"%string.
Proof.
  assert (0 < Votes story_B)%Z as Hv by reflexivity.
  assert (0 <= Comments story_B)%Z as Hc by discriminate.
  destruct (engagement_bucket_of_ratio story_B Hv Hc)
    as (r & label & Hr & Heq & Hcut & _ & Hquiet & _).
  exists r, label. split_and!; [done..|].
  apply Hquiet. rewrite Heq. reflexivity.
Defined.

(** C7, counterexample: the story with -2 votes and -4 comments does not
    have positive votes, yet it gets the ratio 2 and is counted in
    "Buzzing (>1.0)": the chart of the table shows one story there, and the
    chart of the rows with positive votes alone shows none. *)
Lemma negative_votes_counterexample :
  story_negative ∈ mixed_table
  ∧ ¬ (0 < Votes story_negative)%Z
  ∧ EngagementRatio story_negative = Some (inject_Z (-4) / inject_Z (-2))
  ∧ inject_Z (-4) / inject_Z (-2) == 2
  ∧ cut engagement_edges engagement_labels (inject_Z (-4) / inject_Z (-2))
    = Some "Buzzing (>1.0)"%string
  ∧ (story_negative, inject_Z (-4) / inject_Z (-2)) ∈ engagement mixed_table
  ∧ engagement_chart mixed_table = Pie engagement_labels [5; 0; 1]
  ∧ engagement_chart (filter (fun r => (0 < Votes r)%Z) mixed_table)
    = Pie engagement_labels [5; 0; 0].
Proof.
  split_and!; try reflexivity.
  - unfold mixed_table. set_solver.
  - discriminate.
  - vm_compute. set_solver.
Qed.

(** The story without votes of the same table has no ratio and is in no
    bucket. *)
Lemma engagement_excludes_zero_votes_witness :
  EngagementRatio story_unvoted = None
  ∧ story_unvoted ∉ fst <$> engagement mixed_table.
Proof.
  refine (proj1 (proj2 (engagement_excludes_zero_votes mixed_table)) story_unvoted _ _).
  - unfold mixed_table. set_solver.
  - reflexivity.
Defined.

(** C6, counterexample: a URL with an opening bracket and no closing one
    does not parse; the extractor raises "Invalid IPv6 URL" and does not
    return "Unknown". *)
Lemma unparsable_url_counterexample :
  domain_label accept_all accept_all (Text "http://[::1")
  = Raise (UrlError "Invalid IPv6 URL")
  ∧ domain_label accept_all accept_all (Text "http://[::1") ≠ Ok "Unknown"%string.
Proof. split; [reflexivity|discriminate]. Qed.

Lemma missing_url_is_unknown_witness :
  domain_label accept_all accept_all NaN = Ok "Unknown"%string.
Proof.
  refine (proj1 (proj2 (proj2 (missing_url_is_unknown accept_all accept_all NaN _)))).
  exact I.
Defined.

Lemma plot_visualizations_keeps_table_witness :
  (plot_visualizations stable_argsort_desc keep_text accept_all accept_all 0 sample_store).2
    !! 0%nat = Some sample_frame.
Proof.
  refine (proj1 (plot_visualizations_keeps_table stable_argsort_desc keep_text
                   accept_all accept_all sample_store 0 sample_frame _)).
  reflexivity.
Defined.

(** ** The end-to-end example of the specification *)

(** With the two top stories asked for, the vote share of the sample table
    is A, B and "Other stories" with size 10. *)
Example sample_vote_share :
  _aggregate_top_share stable_argsort_desc sample_table Votes title_of 2 "Other stories"
  = (["A"; "B"; "Other stories"]%string, [100; 50; 10]).
Proof. reflexivity. Qed.

Lemma sample_run :
  (plot_visualizations stable_argsort_desc keep_text accept_all accept_all 0 sample_store).1
  = Ok sample_charts.
Proof. vm_compute. reflexivity. Qed.

(** The "Other" slice stays last when it is larger than the slices before
    it. *)
Example other_slice_is_last :
  _aggregate_top_share stable_argsort_desc
    [("a", 3); ("b", 2); ("c", 2); ("d", 2)]%string%Z snd fst 2 "Other"
  = (["a"; "b"; "Other"]%string, [3; 2; 4]).
Proof. reflexivity. Qed.

(** A cell above 2^53 is shown as the float nearest to it. *)
Example large_cell_is_rounded :
  _aggregate_top_share stable_argsort_desc [("a", 2 ^ 53 + 1)]%string%Z snd fst 5 "Other"
  = (["a"]%string, [inject_Z (2 ^ 53)]).
Proof. reflexivity. Qed.

(** The table with the negative story is drawn, the negative story being
    cut off from the two story pies; the story alone is refused by the
    renderer, and so is a story without votes. *)
Example mixed_table_is_drawn :
  ∃ d, (plot_visualizations stable_argsort_desc keep_text accept_all accept_all 0
          {[ 0%nat := {| rows := mixed_table; assigned := ∅ |} ]}).1 = Ok d
       ∧ ax_ratio d = Pie engagement_labels [5; 0; 1].
Proof. eexists. split; [vm_compute; reflexivity|reflexivity]. Qed.

Example negative_size_is_refused :
  (plot_visualizations stable_argsort_desc keep_text accept_all accept_all 0
     {[ 0%nat := {| rows := [story_negative]; assigned := ∅ |} ]}).1
  = Raise NegativeWedge.
Proof. vm_compute. reflexivity. Qed.

Example zero_sizes_are_refused :
  (plot_visualizations stable_argsort_desc keep_text accept_all accept_all 0
     {[ 0%nat := {| rows := [story_unvoted]; assigned := ∅ |} ]}).1
  = Raise ZeroWedges.
Proof. vm_compute. reflexivity. Qed.

(** ** The driver on a sample file *)

Lemma main_keeps_loaded_table_witness :
  (main stable_argsort_desc keep_text accept_all accept_all sample_numeric
     "/srv/hn" sample_files ∅).2 !! fresh (dom (∅ : store))
  = Some {| rows := load_hackernews sample_numeric sample_csv; assigned := ∅ |}.
Proof.
  refine (proj1 (main_keeps_loaded_table stable_argsort_desc keep_text accept_all
                   accept_all sample_numeric "/srv/hn" sample_files ∅ sample_csv _)).
  reflexivity.
Defined.

Example sample_main_drops_bad_row :
  load_hackernews sample_numeric sample_csv = [story_A; story_C].
Proof. reflexivity. Qed.

(** ** Further properties at sample inputs *)

Lemma aggregate_at_most_top_n_plus_one_witness :
  (length (_aggregate_top_share stable_argsort_desc sample_table Votes title_of 2
             "Other stories").2 <= 3)%nat.
Proof.
  apply (aggregate_at_most_top_n_plus_one stable_argsort_desc sample_table Votes
           title_of 2 "Other stories").
  lia.
Defined.

Lemma other_slice_is_cut_off_total_witness :
  ∃ kept cut_off : list Story,
    kept ++ cut_off ≡ₚ sample_table
    ∧ sort_values stable_argsort_desc sample_table Votes = kept ++ cut_off
    ∧ top stable_argsort_desc sample_table Votes title_of 2
      = (fun r => (title_of r, Votes r)) <$> kept
    ∧ remainder stable_argsort_desc sample_table Votes title_of 2
      = Series_sum (Votes <$> cut_off)
    ∧ ((- 2 ^ 63 <= sumZ (Votes <$> cut_off) < 2 ^ 63)%Z ->
       remainder stable_argsort_desc sample_table Votes title_of 2
       = sumZ (Votes <$> cut_off))
    ∧ (Forall (fun r => (0 <= Votes r)%Z) sample_table ->
       (sumZ (Votes <$> sample_table) < 2 ^ 63)%Z ->
       remainder stable_argsort_desc sample_table Votes title_of 2
       = sumZ (Votes <$> cut_off)).
Proof.
  apply other_slice_is_cut_off_total. apply sample_votes_argsort.
Defined.

Lemma aggregate_nonpositive_top_n_witness :
  _aggregate_top_share stable_argsort_desc sample_table Votes title_of 0 "Other stories"
  = ([], [])
  ∨ _aggregate_top_share stable_argsort_desc sample_table Votes title_of 0 "Other stories"
    = (["Other stories"%string],
       [astype_float (remainder stable_argsort_desc sample_table Votes title_of 0)]).
Proof.
  refine (proj2 (proj1 (aggregate_nonpositive_top_n stable_argsort_desc sample_table
                          Votes title_of 0 "Other stories" _) _)).
  - apply sample_votes_argsort.
  - reflexivity.
Defined.

Lemma aggregate_distinct_values_determined_witness :
  _aggregate_top_share stable_argsort_desc sample_table Votes title_of 2 "Other stories"
  = _aggregate_top_share unstable_argsort_desc sample_table Votes title_of 2
      "Other stories".
Proof.
  refine (proj2 (aggregate_distinct_values_determined stable_argsort_desc
                   unstable_argsort_desc sample_table Votes title_of 2
                   "Other stories" sample_votes_distinct sample_votes_argsort _)).
  split; [reflexivity|]. unfold descending. repeat constructor; discriminate.
Defined.

Lemma domain_label_well_formed_witness :
  "x.com"%string ≠ EmptyString
  ∧ all_chars (fun c => negb (netloc_delim c)) "x.com" = true.
Proof.
  apply (domain_label_well_formed accept_all accept_all (Text "http://x.com")).
  reflexivity.
Defined.

Lemma plot_visualizations_labels_witness :
  ∃ vote_labels vote_sizes comment_labels comment_sizes domain_labels domain_sizes,
    ax_votes sample_charts = Pie vote_labels vote_sizes
    ∧ ax_comments sample_charts = Pie comment_labels comment_sizes
    ∧ ax_domains sample_charts = Pie domain_labels domain_sizes
    ∧ (∀ label, label ∈ vote_labels ∨ label ∈ comment_labels ->
         (∃ r, r ∈ rows (sample_store !!! 0%nat)
               ∧ label = keep_text (py_str (Title r)) 40 "…")
         ∨ label = "Other stories"%string)
    ∧ (∀ label, label ∈ domain_labels ->
         (∃ r, r ∈ rows (sample_store !!! 0%nat)
               ∧ domain_label accept_all accept_all (URL r) = Ok label)
         ∨ label = "Other domains"%string).
Proof.
  apply (plot_visualizations_labels stable_argsort_desc keep_text accept_all accept_all
           sample_store 0 sample_charts).
  exact sample_run.
Defined.

Lemma plot_visualizations_totals_witness :
  ∃ vote_labels vote_sizes comment_labels comment_sizes domain_labels domain_sizes,
    ax_votes sample_charts = Pie vote_labels vote_sizes
    ∧ ax_comments sample_charts = Pie comment_labels comment_sizes
    ∧ ax_domains sample_charts = Pie domain_labels domain_sizes
    ∧ sumQ vote_sizes == inject_Z (sumZ (Votes <$> rows (sample_store !!! 0%nat)))
    ∧ sumQ comment_sizes == inject_Z (sumZ (Comments <$> rows (sample_store !!! 0%nat)))
    ∧ sumQ domain_sizes == inject_Z (sumZ (Votes <$> rows (sample_store !!! 0%nat)))
    ∧ (length vote_sizes <= 6)%nat
    ∧ (length comment_sizes <= 6)%nat
    ∧ (length domain_sizes <= 7)%nat.
Proof.
  apply (plot_visualizations_totals stable_argsort_desc keep_text accept_all accept_all
           sample_store 0 sample_charts).
  - exact stable_argsort_desc_spec.
  - repeat constructor; discriminate.
  - discriminate.
  - discriminate.
  - exact sample_run.
Defined.

Lemma plot_visualizations_twice_witness :
  (plot_visualizations stable_argsort_desc keep_text accept_all accept_all 0
     (plot_visualizations stable_argsort_desc keep_text accept_all accept_all 0
        sample_store).2).1
  = (plot_visualizations stable_argsort_desc keep_text accept_all accept_all 0
       sample_store).1.
Proof.
  apply (plot_visualizations_twice stable_argsort_desc keep_text accept_all accept_all
           sample_store 0 sample_frame).
  reflexivity.
Defined.

Lemma engagement_bucket_monotone_witness :
  cut engagement_edges engagement_labels 10 = Some "Buzzing (>1.0)"%string.
Proof.
  refine (proj1 (proj2 (engagement_bucket_monotone 2 10 _ _)) _);
    [discriminate | discriminate | reflexivity].
Defined.
